(** * zed-wolfram: the nested-comment scanner and the highlight generator

    A shallow embedding of
    - [grammars/wolfram/src/scanner.c], the external scanner that
      recognises nested Wolfram Language comments, and
    - [tools/generate-highlights.ts], the script that expands the
      trie-compressed symbol patterns of the TextMate grammar and emits
      [highlights.scm] and [brackets.scm],
    together with the properties the specification states about them. *)

From Stdlib Require Import String Ascii.
From Stdlib Require Import ZArith List Bool Lia Arith.
From Stdlib Require Import Sorting.Sorted Sorting.Permutation Sorting.Mergesort.
From Stdlib Require Import Structures.Orders.
From Stdlib Require Import Structures.OrderedTypeEx.
Import ListNotations.

Local Open Scope Z_scope.

(** Code points of the characters of a string literal, the way the host
    hands them to the scanner through [lookahead]. *)
Definition codes (s : string) : list Z :=
  map (fun a => Z.of_nat (nat_of_ascii a)) (list_ascii_of_string s).

(* ================================================================== *)
(** ** The external scanner ([scanner.c])                              *)
(* ================================================================== *)

Module Scanner.

(** [enum TokenType { COMMENT }] *)
Inductive TokenType : Type := COMMENT.

(** The part of the host's [TSLexer] the scanner touches.  The header
    [tree_sitter/parser.h] belongs to the host framework; its contract is:
    [lookahead] is the next code point (0 at end of input), [advance]
    moves past it (a skipped character moves the start of the token as
    well), [mark_end] records the current position as the end of the
    token, [eof] tells whether the input is exhausted, and
    [result_symbol] is the slot the scanner writes the token kind to.
    The scanner never advances at the end of the input; [advance] is
    taken to do nothing there. *)
Record TSLexer : Type := mkLexer {
  rest : list Z;                      (* input from the cursor on *)
  position : nat;                     (* characters behind the cursor *)
  token_start : nat;                  (* position after the last skipped character *)
  marked_end : option nat;            (* set by mark_end *)
  result_symbol : option TokenType    (* set by the scanner *)
}.

(** The code point in front of a piece of input, 0 when it is empty. *)
Definition peek (s : list Z) : Z :=
  match s with
  | [] => 0
  | c :: _ => c
  end.

Definition lookahead (lexer : TSLexer) : Z := peek (rest lexer).

Definition eof (lexer : TSLexer) : bool :=
  match rest lexer with
  | [] => true
  | _ :: _ => false
  end.

Definition advance (lexer : TSLexer) (skip : bool) : TSLexer :=
  match rest lexer with
  | [] => lexer
  | _ :: r =>
      {| rest := r;
         position := S (position lexer);
         token_start := if skip then S (position lexer) else token_start lexer;
         marked_end := marked_end lexer;
         result_symbol := result_symbol lexer |}
  end.

Definition mark_end (lexer : TSLexer) : TSLexer :=
  {| rest := rest lexer;
     position := position lexer;
     token_start := token_start lexer;
     marked_end := Some (position lexer);
     result_symbol := result_symbol lexer |}.

Definition set_result_symbol (lexer : TSLexer) (t : TokenType) : TSLexer :=
  {| rest := rest lexer;
     position := position lexer;
     token_start := token_start lexer;
     marked_end := marked_end lexer;
     result_symbol := Some t |}.

(** The lexer the host passes in for a fresh token at the start of [s]. *)
Definition lexer_on (s : list Z) : TSLexer :=
  {| rest := s; position := 0; token_start := 0;
     marked_end := None; result_symbol := None |}.

(** Character constants of the source: the two parentheses and the star. *)
Definition LPAREN : Z := 40.   
Definition RPAREN : Z := 41.   
Definition STAR   : Z := 42.   

(** One pass through the body of the [while] loop of [scan_comment]:
    either the function returns, or the loop goes round again with the
    depth and lexer it has reached. *)
Inductive iteration : Type :=
| Return (result : bool) (lexer : TSLexer)
| Continue (depth : Z) (lexer : TSLexer).

(** The [switch] of [scan_comment].  [depth] is a C [int]; it changes by
    one per character read, and the host addresses its input with 32-bit
    byte offsets, so it stays far inside the range of [int] and is kept
    as an unbounded integer here. *)
Definition scan_comment_body (depth : Z) (lexer : TSLexer) : iteration :=
  if lookahead lexer =? STAR then
    let lexer := advance lexer false in
    if lookahead lexer =? RPAREN then
      let depth := depth - 1 in
      if depth =? 0 then
        let lexer := set_result_symbol lexer COMMENT in
        let lexer := advance lexer false in
        let lexer := mark_end lexer in
        Return true lexer
      else Continue depth lexer
    else Continue depth lexer
  else if lookahead lexer =? LPAREN then
    let lexer := advance lexer false in
    if lookahead lexer =? STAR then Continue (depth + 1) lexer
    else Continue depth lexer
  else
    Continue depth (advance lexer false).

(** [while (!lexer->eof(lexer)) { ... } return false;] with the number of
    iterations bounded by [fuel]; [None] only when the fuel runs out. *)
Fixpoint scan_comment_loop (fuel : nat) (depth : Z) (lexer : TSLexer)
  : option (bool * TSLexer) :=
  match fuel with
  | O => None
  | S fuel' =>
      if eof lexer then Some (false, lexer)
      else match scan_comment_body depth lexer with
           | Return result lexer' => Some (result, lexer')
           | Continue depth' lexer' => scan_comment_loop fuel' depth' lexer'
           end
  end.

(** [static bool scan_comment(TSLexer *lexer)]: [int depth = 1], then the
    loop.  Every iteration consumes a character, so one more iteration
    than there are characters left is always enough
    (see [scan_comment_returns]). *)
Definition scan_comment (lexer : TSLexer) : option (bool * TSLexer) :=
  scan_comment_loop (S (length (rest lexer))) 1 lexer.

(** [n] iterations of the loop that all go round again, from [depth] and
    [lexer]: the depth and lexer in front of iteration [n + 1]. *)
Fixpoint iterate (n : nat) (depth : Z) (lexer : TSLexer) : option (Z * TSLexer) :=
  match n with
  | O => Some (depth, lexer)
  | S n' =>
      if eof lexer then None
      else match scan_comment_body depth lexer with
           | Return _ _ => None
           | Continue depth' lexer' => iterate n' depth' lexer'
           end
  end.

Section Scan.

(** [iswspace] of the C library: which code points count as white space
    depends on the locale, so the predicate is a parameter. *)
Variable iswspace : Z -> bool.

(** [while (iswspace(lexer->lookahead)) lexer->advance(lexer, true);] *)
Fixpoint skip_whitespace (fuel : nat) (lexer : TSLexer) : option TSLexer :=
  match fuel with
  | O => None
  | S fuel' =>
      if iswspace (lookahead lexer)
      then skip_whitespace fuel' (advance lexer true)
      else Some lexer
  end.

(** [tree_sitter_wolfram_external_scanner_scan]; [payload] is the null
    pointer of [..._create] and [valid_symbols] is never read. *)
Definition tree_sitter_wolfram_external_scanner_scan (lexer : TSLexer)
  : option (bool * TSLexer) :=
  match skip_whitespace (S (length (rest lexer))) lexer with
  | None => None
  | Some lexer =>
      if lookahead lexer =? LPAREN then
        let lexer := advance lexer false in
        if lookahead lexer =? STAR then
          let lexer := advance lexer false in
          scan_comment lexer
        else Some (false, lexer)
      else Some (false, lexer)
  end.

End Scan.

(** What the host makes of a call: on [true] a token of the kind in
    [result_symbol] from [token_start] to the marked end (the cursor when
    no end was marked); on [false] no token. *)
Inductive scan_result : Type :=
| Token (kind : TokenType) (start finish : nat)
| NoToken.

Definition token_of (r : bool * TSLexer) : scan_result :=
  let (ok, lexer) := r in
  if ok then
    match result_symbol lexer with
    | Some k =>
        Token k (token_start lexer)
              (match marked_end lexer with Some e => e | None => position lexer end)
    | None => NoToken
    end
  else NoToken.

(** The white space of the "C" locale: space, \t, \n, \v, \f, \r. *)
Definition iswspace_C (c : Z) : bool :=
  (c =? 32) || ((9 <=? c) && (c <=? 13)).

(** The scan of a whole input string, as the host reports it. *)
Definition tokenize (iswspace : Z -> bool) (s : list Z) : option scan_result :=
  option_map token_of (tree_sitter_wolfram_external_scanner_scan iswspace (lexer_on s)).

(** The lexer when [tree_sitter_wolfram_external_scanner_scan] has
    skipped the white space [ws] and consumed the opening two characters,
    with [body] still to read: the state [scan_comment] starts from. *)
Definition comment_opened (ws body : list Z) : TSLexer :=
  {| rest := body;
     position := List.length ws + 2;
     token_start := List.length ws;
     marked_end := None;
     result_symbol := None |}.

(** *** Nested comments, as the specification words them

    These definitions follow the words of the specification, not the
    code; the scanner is compared with them.

    The delimiters are the two-character tokens [LPAREN STAR] and
    [STAR RPAREN], read from left to right and each consumed whole; an
    opening delimiter inside a comment starts a nested comment, a closing
    one ends the innermost open comment.  [spec_matching_close nesting s pos]
    reads [s], which starts at offset [pos] inside a comment with
    [nesting] nested comments open, and returns the offset one past the
    closing delimiter that matches the outermost opening one. *)
Fixpoint spec_matching_close (nesting : nat) (s : list Z) (pos : nat) : option nat :=
  match s with
  | [] => None
  | c :: s1 =>
      match s1 with
      | [] => None
      | c' :: s2 =>
          if (c =? LPAREN) && (c' =? STAR) then
            spec_matching_close (S nesting) s2 (pos + 2)
          else if (c =? STAR) && (c' =? RPAREN) then
            match nesting with
            | O => Some (pos + 2)%nat
            | S n => spec_matching_close n s2 (pos + 2)
            end
          else spec_matching_close nesting s1 (pos + 1)
      end
  end.

(** The number of comments still open when the end of [s] is reached,
    [s] being read inside a comment with [nesting] nested comments
    open; 0 when the outermost comment is closed before the end. *)
Fixpoint spec_open_at_end (nesting : nat) (s : list Z) : nat :=
  match s with
  | [] => S nesting
  | c :: s1 =>
      match s1 with
      | [] => S nesting
      | c' :: s2 =>
          if (c =? LPAREN) && (c' =? STAR) then
            spec_open_at_end (S nesting) s2
          else if (c =? STAR) && (c' =? RPAREN) then
            match nesting with
            | O => O
            | S n => spec_open_at_end n s2
            end
          else spec_open_at_end nesting s1
      end
  end.

(** The end of the comment an input starts with, if it starts with a
    complete one. *)
Definition spec_comment_end (s : list Z) : option nat :=
  match s with
  | c :: c' :: body =>
      if (c =? LPAREN) && (c' =? STAR) then spec_matching_close 0 body 2 else None
  | _ => None
  end.

(** Does [s] hold an opening delimiter directly followed by [RPAREN]? *)
Fixpoint has_open_close (s : list Z) : bool :=
  match s with
  | [] => false
  | c :: s1 =>
      ((c =? LPAREN) &&
       match s1 with
       | c1 :: c2 :: _ => (c1 =? STAR) && (c2 =? RPAREN)
       | _ => false
       end)
      || has_open_close s1
  end.

(** What a call of the loop amounts to when the input it starts on is
    [body], read at offset [p] with [nesting] nested comments open. *)
Definition loop_outcome (nesting : nat) (body : list Z) (p ts : nat)
    (me : option nat) (rs : option TokenType) : bool * TSLexer :=
  match spec_matching_close nesting body p with
  | Some e =>
      (true, {| rest := skipn (e - p) body; position := e; token_start := ts;
                marked_end := Some e; result_symbol := Some COMMENT |})
  | None =>
      (false, {| rest := []; position := p + List.length body; token_start := ts;
                 marked_end := me; result_symbol := rs |})
  end.

(** *** The rest of the external scanner's interface

    The scanner keeps no state: [..._create] returns the null pointer,
    [..._destroy] and [..._deserialize] do nothing, and [..._serialize]
    writes nothing and reports zero bytes. *)
Inductive Payload : Type := NULL.

Definition tree_sitter_wolfram_external_scanner_create : Payload := NULL.

Definition tree_sitter_wolfram_external_scanner_destroy (payload : Payload)
  : unit := tt.

(** The buffer after the call and the number of bytes written to it. *)
Definition tree_sitter_wolfram_external_scanner_serialize (payload : Payload)
    (buffer : list Z) : list Z * nat := (buffer, 0%nat).

Definition tree_sitter_wolfram_external_scanner_deserialize (payload : Payload)
    (buffer : list Z) (length : nat) : Payload := payload.

(** *** Offsets moved by [n]

    A lexer whose input starts [n] characters further on, and a scan
    result reported that much further on. *)
Definition shift_lexer (n : nat) (lexer : TSLexer) : TSLexer :=
  {| rest := rest lexer;
     position := position lexer + n;
     token_start := token_start lexer + n;
     marked_end := option_map (fun e => (e + n)%nat) (marked_end lexer);
     result_symbol := result_symbol lexer |}.

Definition shift_iteration (n : nat) (it : iteration) : iteration :=
  match it with
  | Return result lexer => Return result (shift_lexer n lexer)
  | Continue depth lexer => Continue depth (shift_lexer n lexer)
  end.

Definition shift_outcome (n : nat) (r : bool * TSLexer) : bool * TSLexer :=
  (fst r, shift_lexer n (snd r)).

Definition shift_result (n : nat) (r : scan_result) : scan_result :=
  match r with
  | Token kind start finish => Token kind (start + n) (finish + n)
  | NoToken => NoToken
  end.

End Scanner.

(* ================================================================== *)
(** ** The highlight generator ([generate-highlights.ts])              *)
(* ================================================================== *)

Module Generator.

Local Open Scope string_scope.
Local Open Scope nat_scope.

(** *** JavaScript strings

    Strings are sequences of code units; the operations the script uses
    are indexing, [length], [substring], [startsWith], [endsWith] and
    concatenation.  The code units are those of [ascii]: the patterns
    of the grammar and the symbol names are ASCII text, and the two
    dashes in the fixed text of the output stand as the bytes that are
    written to the file. *)

(** [s.substring(a, b)] for [a <= b] and [s.substring(a)]. *)
Definition js_substring (s : string) (a b : nat) : string :=
  substring a (b - a) s.

Definition js_substring_from (s : string) (a : nat) : string :=
  substring a (String.length s - a) s.

Definition startsWith (s p : string) : bool := prefix p s.

Definition endsWith (s p : string) : bool :=
  (String.length p <=? String.length s) &&
  String.eqb (js_substring_from s (String.length s - String.length p)) p.

(** [parts.join(sep)] *)
Definition join (sep : string) (parts : list string) : string :=
  String.concat sep parts.

Definition LP : ascii := "(".
Definition RP : ascii := ")".
Definition BAR : ascii := "|".

(** *** [splitTopLevel] *)

(** The [for] loop of [splitTopLevel]: [todo] is [s] from index [i] on. *)
Fixpoint splitTopLevel_loop (s todo : string) (i : nat) (depth : Z)
    (start : nat) (parts : list string) : list string :=
  match todo with
  | EmptyString => parts ++ [js_substring_from s start]
  | String c todo' =>
      if Ascii.eqb c LP then
        splitTopLevel_loop s todo' (S i) (depth + 1)%Z start parts
      else if Ascii.eqb c RP then
        splitTopLevel_loop s todo' (S i) (depth - 1)%Z start parts
      else if Ascii.eqb c BAR && (depth =? 0)%Z then
        splitTopLevel_loop s todo' (S i) depth (S i)
                           (parts ++ [js_substring s start i])
      else
        splitTopLevel_loop s todo' (S i) depth start parts
  end.

Definition splitTopLevel (s : string) : list string :=
  splitTopLevel_loop s s 0 0%Z 0 [].

(** *** [expandTrie] and [doExpand] *)

(** How the first loop of [doExpand] ends: at a top-level [|], or at the
    end of the string with [parenStart] ([None] for the source's -1). *)
Inductive first_scan : Type :=
| TopLevelBar
| ScanDone (parenStart : option nat).

(** First loop of [doExpand]; [parenStart] is overwritten at every [(]
    met at depth 0. *)
Fixpoint doExpand_scan (todo : string) (i : nat) (depth : Z)
    (parenStart : option nat) : first_scan :=
  match todo with
  | EmptyString => ScanDone parenStart
  | String c todo' =>
      if Ascii.eqb c LP then
        doExpand_scan todo' (S i) (depth + 1)%Z
                      (if (depth =? 0)%Z then Some i else parenStart)
      else if Ascii.eqb c RP then
        doExpand_scan todo' (S i) (depth - 1)%Z parenStart
      else if Ascii.eqb c BAR && (depth =? 0)%Z then
        TopLevelBar
      else
        doExpand_scan todo' (S i) depth parenStart
  end.

(** Second loop of [doExpand], from index [i] on: the index of the [)]
    that brings the depth back to 0 ([None] for -1). *)
Fixpoint doExpand_close (todo : string) (i : nat) (depth : Z) : option nat :=
  match todo with
  | EmptyString => None
  | String c todo' =>
      if Ascii.eqb c LP then doExpand_close todo' (S i) (depth + 1)%Z
      else if Ascii.eqb c RP then
        if (depth - 1 =? 0)%Z then Some i
        else doExpand_close todo' (S i) (depth - 1)%Z
      else doExpand_close todo' (S i) depth
  end.

(** [if (x.length > 0) results.push(x)] *)
Definition push_nonempty (results : list string) (x : string) : list string :=
  if 0 <? String.length x then results ++ [x] else results.

(** [for (const alt of alts) f(alt, results)] for an [f] that may run
    out of fuel. *)
Definition for_each (f : string -> list string -> option (list string))
    (alts : list string) (results : list string) : option (list string) :=
  fold_left (fun acc alt => match acc with
                            | Some r => f alt r
                            | None => None
                            end) alts (Some results).

(** [doExpand(s, results)]: [results] is the array the calls push to,
    threaded through.  The recursion is on strings that get shorter, so
    it is bounded by [fuel]; [None] only when the fuel runs out. *)
Fixpoint doExpand (fuel : nat) (s : string) (results : list string)
  : option (list string) :=
  match fuel with
  | O => None
  | S fuel' =>
      match doExpand_scan s 0 0%Z None with
      | TopLevelBar =>
          for_each (doExpand fuel') (splitTopLevel s) results
      | ScanDone None =>
          Some (push_nonempty results s)
      | ScanDone (Some parenStart) =>
          let prefix := js_substring s 0 parenStart in
          match doExpand_close (js_substring_from s parenStart) parenStart 0%Z with
          | None => Some (push_nonempty results prefix)
          | Some parenEnd =>
              let inner := js_substring s (parenStart + 1) parenEnd in
              let suffix := js_substring_from s (parenEnd + 1) in
              let inner := if startsWith inner "?:"
                           then js_substring_from inner 2 else inner in
              let alternatives := splitTopLevel inner in
              for_each (fun alt => doExpand fuel' (prefix ++ alt ++ suffix))
                       alternatives results
          end
      end
  end.

(** [expandTrie(s)].  A call of [doExpand] on a string of length [n]
    nests at most [n + 1] deep ([doExpand_returns]), so the fuel given
    here never runs out and the [None] branch is never taken. *)
Definition expandTrie (s : string) : list string :=
  match doExpand (S (String.length s)) s [] with
  | Some results => results
  | None => []
  end.

(** *** [extractSymbolNames] *)

Definition BACKTICK : ascii := "`".
Definition BACKSLASH : ascii := "\".

(** [matchPattern.replace(/^System[`\\`]/, "")]: the character class
    holds the backtick and the backslash, so the match is [System]
    followed by one of these two characters. *)
Definition strip_System_prefix (matchPattern : string) : string :=
  if startsWith matchPattern "System" then
    match String.get 6 matchPattern with
    | Some c =>
        if Ascii.eqb c BACKTICK || Ascii.eqb c BACKSLASH
        then js_substring_from matchPattern 7
        else matchPattern
    | None => matchPattern
    end
  else matchPattern.

(** The characters [.] does not match, among the code units modelled. *)
Definition line_terminator (c : ascii) : bool :=
  Ascii.eqb c "010" || Ascii.eqb c "013".

Fixpoint no_line_terminator (s : string) : bool :=
  match s with
  | EmptyString => true
  | String c s' => negb (line_terminator c) && no_line_terminator s'
  end.

(** Does [/\(\?!\[.*\]\)$/] match [todo] from its first character on:
    [(?!\[], then any characters but line terminators, then [\])] at the
    very end. *)
Definition lookahead_here (todo : string) : bool :=
  startsWith todo "(?![" &&
  (let body := js_substring_from todo 4 in
   endsWith body "])" &&
   no_line_terminator (js_substring body 0 (String.length body - 2))).

(** [pattern.replace(/\(\?!\[.*\]\)$/, "")]: the leftmost match is cut
    off, and it reaches to the end of the string. *)
Fixpoint strip_lookahead (todo : string) : string :=
  if lookahead_here todo then EmptyString
  else match todo with
       | EmptyString => EmptyString
       | String c todo' => String c (strip_lookahead todo')
       end.

(** The balance check of the outer group: [None] when the depth drops
    below zero ([balanced = false]), the final depth otherwise. *)
Fixpoint balance (inner : string) (depth : Z) : option Z :=
  match inner with
  | EmptyString => Some depth
  | String c inner' =>
      if Ascii.eqb c LP then balance inner' (depth + 1)%Z
      else if Ascii.eqb c RP then
        if (depth - 1 <? 0)%Z then None else balance inner' (depth - 1)%Z
      else balance inner' depth
  end.

Definition unwrap_outer_group (pattern : string) : string :=
  if startsWith pattern "(?:" && endsWith pattern ")" then
    let inner := js_substring pattern 3 (String.length pattern - 1) in
    match balance inner 0%Z with
    | Some 0%Z => inner
    | _ => pattern
    end
  else pattern.

Definition is_upper (c : ascii) : bool :=
  let n := nat_of_ascii c in (65 <=? n) && (n <=? 90).
Definition is_lower (c : ascii) : bool :=
  let n := nat_of_ascii c in (97 <=? n) && (n <=? 122).
Definition is_digit (c : ascii) : bool :=
  let n := nat_of_ascii c in (48 <=? n) && (n <=? 57).
Definition DOLLAR : ascii := "$".

(** [[$A-Za-z]] and [[$A-Za-z0-9]] *)
Definition symbol_start (c : ascii) : bool :=
  Ascii.eqb c DOLLAR || is_upper c || is_lower c.
Definition symbol_char (c : ascii) : bool :=
  symbol_start c || is_digit c.

Fixpoint all_chars (p : ascii -> bool) (s : string) : bool :=
  match s with
  | EmptyString => true
  | String c s' => p c && all_chars p s'
  end.

(** [/^[$A-Za-z][$A-Za-z0-9]*$/.test(n)] *)
Definition is_symbol_name (n : string) : bool :=
  match n with
  | EmptyString => false
  | String c n' => symbol_start c && all_chars symbol_char n'
  end.

Definition extractSymbolNames (matchPattern : string) : list string :=
  let pattern := strip_System_prefix matchPattern in
  let pattern := strip_lookahead pattern in
  let pattern := unwrap_outer_group pattern in
  let names := expandTrie pattern in
  filter is_symbol_name names.

(** *** [generateMatchBlocks] and [formatMatchBlock] *)

Definition nl : string := String "010"%char EmptyString.
Definition dq : string := String "034"%char EmptyString.

(** [[...new Set(names)]]: the distinct names in order of first
    occurrence. *)
Fixpoint set_loop (names seen : list string) : list string :=
  match names with
  | [] => seen
  | n :: names' =>
      if existsb (String.eqb n) seen then set_loop names' seen
      else set_loop names' (seen ++ [n])
  end.

Definition array_of_set (names : list string) : list string :=
  set_loop names [].

(** [Array.prototype.sort()] without a comparator orders strings by
    their code units.  That order is total, so every correct sorting
    algorithm returns the same array; the merge sort of the standard
    library stands for the engine's. *)
Module CodeUnitOrder <: TotalLeBool.
Definition t : Type := string.
Definition leb : t -> t -> bool := String.leb.
Lemma leb_total : forall a1 a2, leb a1 a2 = true \/ leb a2 a1 = true.
Proof. exact String.leb_total. Qed.
End CodeUnitOrder.

Module CodeUnitSort := Sort CodeUnitOrder.

Definition js_sort (l : list string) : list string := CodeUnitSort.sort l.

(** The alternation of a block, [names.join("|")]. *)
Definition alternation (names : list string) : string := join "|" names.

(** The pattern of a block: the alternation in a group, anchored at both
    ends. *)
Definition block_regex (names : list string) : string :=
  "^(" ++ alternation names ++ ")$".

Definition formatMatchBlock (capture : string) (names : list string)
    (nodeType : string) : string :=
  let regex := block_regex names in
  "((" ++ nodeType ++ ") @" ++ capture ++ nl ++
  "  (#match? @" ++ capture ++ " " ++ dq ++ regex ++ dq ++ "))".

(** The [for] loop of [generateMatchBlocks] and the flush after it.
    [lines] collects the batches in the order they are formatted. *)
Fixpoint batch_loop (maxRegexLen : nat) (sorted : list string)
    (lines : list (list string)) (batch : list string) (currentLen : nat)
  : list (list string) :=
  match sorted with
  | [] => if 0 <? List.length batch then lines ++ [batch] else lines
  | name :: sorted' =>
      if (maxRegexLen <? currentLen + String.length name + 1)
         && (0 <? List.length batch)
      then batch_loop maxRegexLen sorted' (lines ++ [batch]) [name]
                      (String.length name + 1)
      else batch_loop maxRegexLen sorted' lines (batch ++ [name])
                      (currentLen + String.length name + 1)
  end.

(** The name lists [generateMatchBlocks] hands to [formatMatchBlock],
    one per emitted block. *)
Definition matchBatches (names : list string) (maxRegexLen : nat)
  : list (list string) :=
  let sorted := js_sort (array_of_set names) in
  batch_loop maxRegexLen sorted [] [] 0.

Definition generateMatchBlocks (capture : string) (names : list string)
    (nodeType : string) (maxRegexLen : nat) : string :=
  join (nl ++ nl)
       (map (fun batch => formatMatchBlock capture batch nodeType)
            (matchBatches names maxRegexLen)).

(** The default arguments [nodeType = "symbol"], [maxRegexLen = 4000]. *)
Definition default_nodeType : string := "symbol".
Definition default_maxRegexLen : nat := 4000.

(** The count the loop keeps for a batch: the length of every name
    plus one for its separator. *)
Definition weight (batch : list string) : nat :=
  list_sum (map (fun n => String.length n + 1) batch).

(** What the loop guarantees of a batch it emits: it is not empty, and
    its count is within the bound unless it holds a single name. *)
Definition block_ok (maxRegexLen : nat) (batch : list string) : Prop :=
  batch <> [] /\ (weight batch <= maxRegexLen \/ exists n, batch = [n]).

(** A name of 4001 characters, one more than the bound. *)
Fixpoint repeat_char (c : ascii) (n : nat) : string :=
  match n with
  | O => EmptyString
  | S n' => String c (repeat_char c n')
  end.

Definition long_name : string := repeat_char "A" 4001.

(** *** [main] *)

(** [SCOPE_MAP], in the order its keys are written; [None] is [null]. *)
Definition SCOPE_MAP : list (string * option string) :=
  [ ("support.function.builtin.wolfram", Some "function.builtin");
    ("constant.language.wolfram", Some "constant.builtin");
    ("support.function.experimental.wolfram", Some "function.builtin");
    ("support.function.undocumented.wolfram", Some "function");
    ("invalid.deprecated.wolfram", Some "attribute");
    ("invalid.bad.wolfram", None);
    ("invalid.illegal.wolfram", None);
    ("invalid.illegal.system.wolfram", None);
    ("invalid.session.wolfram", Some "variable.special");
    ("variable.function.wolfram", None);
    ("symbol.unrecognized.wolfram", None) ].

(** The fields of [TmPattern] and [TmGrammar] that [main] reads. *)
Record TmPattern : Type := mkTmPattern {
  tm_match : option string;
  tm_name : option string
}.

Record TmGrammar : Type := mkTmGrammar {
  (* grammar.repository.symbols?.patterns *)
  symbols_patterns : option (list TmPattern)
}.

(** [symbolsByScope], a [Map<string, string[]>]: its entries in insertion
    order. *)
Definition ScopeTable : Type := list (string * list string).

Fixpoint map_get (m : ScopeTable) (scope : string) : option (list string) :=
  match m with
  | [] => None
  | (k, v) :: m' => if String.eqb k scope then Some v else map_get m' scope
  end.

Definition map_has (m : ScopeTable) (scope : string) : bool :=
  match map_get m scope with Some _ => true | None => false end.

(** [m.set(scope, v)] for a key that is not in the map yet. *)
Definition map_set_new (m : ScopeTable) (scope : string) (v : list string)
  : ScopeTable := (m ++ [(scope, v)])%list.

(** [m.get(scope)!.push(...names)] *)
Fixpoint map_push (m : ScopeTable) (scope : string) (names : list string)
  : ScopeTable :=
  match m with
  | [] => []
  | (k, v) :: m' =>
      if String.eqb k scope then (k, (v ++ names)%list) :: m'
      else (k, v) :: map_push m' scope names
  end.

(** A field that is [undefined] or the empty string is falsy. *)
Definition truthy (field : option string) : option string :=
  match field with
  | Some EmptyString => None
  | other => other
  end.

(** One iteration of [for (const pattern of symbolPatterns)]. *)
Definition collect_pattern (symbolsByScope : ScopeTable) (pattern : TmPattern)
  : ScopeTable :=
  match truthy (tm_match pattern), truthy (tm_name pattern) with
  | Some mt, Some scope =>
      let names := extractSymbolNames mt in
      if List.length names =? 0 then symbolsByScope
      else
        let symbolsByScope :=
          if map_has symbolsByScope scope then symbolsByScope
          else map_set_new symbolsByScope scope [] in
        map_push symbolsByScope scope names
  | _, _ => symbolsByScope
  end.

Definition collect_symbols (grammar : TmGrammar) : ScopeTable :=
  let symbolPatterns :=
    match symbols_patterns grammar with Some ps => ps | None => [] end in
  fold_left collect_pattern symbolPatterns [].

(** [s.replace(pat, rep)] for a string pattern: the first occurrence. *)
Fixpoint replace_first (pat rep s : string) : string :=
  if startsWith s pat then rep ++ js_substring_from s (String.length pat)
  else match s with
       | EmptyString => EmptyString
       | String c s' => String c (replace_first pat rep s')
       end.

(** A line [ "lit" @capture ] of the fixed rules. *)
Definition rule (lit capture : string) : string :=
  dq ++ lit ++ dq ++ " @" ++ capture.

Definition lines (ls : list string) : string := join nl ls.

Definition section_header : string :=
  lines [ "; Auto-generated by tools/generate-highlights.ts";
          "; Source: vscode-wolfram (https://github.com/WolframResearch/vscode-wolfram)";
          "; Do not edit manually — run: npm run generate" ].

Definition section_comments : string :=
  lines [ "; Comments"; "(comment) @comment" ].

Definition section_strings : string :=
  lines [ "; Strings"; "(string) @string" ].

Definition section_numbers : string :=
  lines [ "; Numbers"; "(integer) @number"; "(real) @number" ].

(** The generic fallback: every symbol node is a [variable]. *)
Definition section_symbols : string :=
  lines [ "; Symbols (generic fallback — must come before specific matches)";
          "(symbol) @variable" ].

Definition section_calls : string :=
  lines [ "; Function calls"; "(call head: (symbol) @function)" ].

Definition section_system_variables : string :=
  lines [ "; System variables starting with $";
          "((symbol) @constant.builtin";
          "  (#match? @constant.builtin " ++ dq ++ "^\\$" ++ dq ++ "))" ].

(** The sections pushed before the generated ones, in order. *)
Definition sections_before : list string :=
  [ section_header; section_comments; section_strings; section_numbers;
    section_symbols; section_calls; section_system_variables ].

(** The section of one entry of [SCOPE_MAP], when it is emitted. *)
Definition scope_section (symbolsByScope : ScopeTable)
    (entry : string * option string) : list string :=
  let (scope, capture) := entry in
  match capture with
  | None => []
  | Some capture =>
      match map_get symbolsByScope scope with
      | None => []
      | Some names =>
          if List.length names =? 0 then []
          else
            let scopeLabel := replace_first ".wolfram" "" scope in
            [ "; " ++ scopeLabel ++ " (from vscode-wolfram)" ++ nl ++
              generateMatchBlocks capture names default_nodeType
                                  default_maxRegexLen ]
      end
  end.

(** [for (const [scope, capture] of Object.entries(SCOPE_MAP))] *)
Definition generated_sections (symbolsByScope : ScopeTable) : list string :=
  flat_map (scope_section symbolsByScope) SCOPE_MAP.

Definition sections_after : list string :=
  [ lines [ "; Assignment operators";
            rule "=" "keyword.operator"; rule ":=" "keyword.operator";
            rule "^=" "keyword.operator"; rule "^:=" "keyword.operator";
            rule "+=" "keyword.operator"; rule "-=" "keyword.operator";
            rule "*=" "keyword.operator"; rule "/=" "keyword.operator";
            rule "//=" "keyword.operator" ];
    lines [ "; Rule operators";
            rule "->" "operator"; rule ":>" "operator";
            rule "<->" "operator"; rule "|->" "operator" ];
    lines [ "; Comparison operators";
            rule "==" "operator"; rule "!=" "operator";
            rule "===" "operator"; rule "=!=" "operator";
            rule "<" "operator"; rule "<=" "operator";
            rule ">" "operator"; rule ">=" "operator" ];
    lines [ "; Logical operators";
            rule "&&" "operator"; rule "||" "operator"; rule "!" "operator" ];
    lines [ "; Arithmetic operators";
            rule "+" "operator"; rule "-" "operator"; rule "*" "operator";
            rule "/" "operator"; rule "^" "operator"; rule "." "operator";
            rule "**" "operator" ];
    lines [ "; Application operators";
            rule "@" "operator"; rule "@@" "operator"; rule "@@@" "operator";
            rule "/@" "operator"; rule "//@" "operator"; rule "//" "operator";
            rule "~~" "operator" ];
    lines [ "; Other operators";
            rule "&" "operator"; rule "/;" "operator"; rule "/." "operator";
            rule "//." "operator"; rule ".." "operator"; rule "..." "operator";
            rule "'" "operator"; rule "!!" "operator"; rule "++" "operator";
            rule "--" "operator"; rule "<>" "operator"; rule "/*" "operator";
            rule "@*" "operator"; rule "?" "operator" ];
    lines [ "; Delimiters";
            rule "(" "punctuation.bracket"; rule ")" "punctuation.bracket";
            rule "[" "punctuation.bracket"; rule "]" "punctuation.bracket";
            rule "{" "punctuation.bracket"; rule "}" "punctuation.bracket";
            rule "<|" "punctuation.bracket"; rule "|>" "punctuation.bracket" ];
    lines [ "; Separators";
            rule "," "punctuation.delimiter"; rule ";" "punctuation.delimiter" ] ].

(** The array [sections] when [main] has pushed everything. *)
Definition highlight_sections (symbolsByScope : ScopeTable) : list string :=
  sections_before ++ generated_sections symbolsByScope ++ sections_after.

(** [sections.join("\n\n") + "\n"] *)
Definition highlights_document (grammar : TmGrammar) : string :=
  join (nl ++ nl) (highlight_sections (collect_symbols grammar)) ++ nl.

Definition brackets_document : string :=
  lines [ "; Auto-generated by tools/generate-highlights.ts";
          "(" ++ dq ++ "(" ++ dq ++ " @open " ++ dq ++ ")" ++ dq ++ " @close)";
          "(" ++ dq ++ "[" ++ dq ++ "  @open " ++ dq ++ "]" ++ dq ++ "  @close)";
          "(" ++ dq ++ "{" ++ dq ++ "  @open " ++ dq ++ "}" ++ dq ++ "  @close)";
          "(" ++ dq ++ "<|" ++ dq ++ " @open " ++ dq ++ "|>" ++ dq ++ " @close)";
          "" ].

(** *** The engine's sort left open

    The language fixes what [sort] returns, not how: without a comparator
    the result holds the elements of the array in non-decreasing order of
    their code units.  [sorts] is that contract, and the definitions
    below are [generateMatchBlocks] and the assembly of the highlights
    document with the sort of the engine at hand as [engine_sort];
    [matchBatches], [generateMatchBlocks], [scope_section] and
    [highlights_document] above are their instances at [js_sort]. *)
Definition sorts (sort : list string -> list string) : Prop :=
  forall l,
    Permutation l (sort l) /\
    StronglySorted (fun a b => String.leb a b = true) (sort l).

Section Engine.

Variable engine_sort : list string -> list string.

Definition matchBatches_by (names : list string) (maxRegexLen : nat)
  : list (list string) :=
  let sorted := engine_sort (array_of_set names) in
  batch_loop maxRegexLen sorted [] [] 0.

Definition generateMatchBlocks_by (capture : string) (names : list string)
    (nodeType : string) (maxRegexLen : nat) : string :=
  join (nl ++ nl)
       (map (fun batch => formatMatchBlock capture batch nodeType)
            (matchBatches_by names maxRegexLen)).

Definition scope_section_by (symbolsByScope : ScopeTable)
    (entry : string * option string) : list string :=
  let (scope, capture) := entry in
  match capture with
  | None => []
  | Some capture =>
      match map_get symbolsByScope scope with
      | None => []
      | Some names =>
          if List.length names =? 0 then []
          else
            let scopeLabel := replace_first ".wolfram" "" scope in
            [ "; " ++ scopeLabel ++ " (from vscode-wolfram)" ++ nl ++
              generateMatchBlocks_by capture names default_nodeType
                                     default_maxRegexLen ]
      end
  end.

Definition highlights_document_by (grammar : TmGrammar) : string :=
  join (nl ++ nl)
       (sections_before ++
        flat_map (scope_section_by (collect_symbols grammar)) SCOPE_MAP ++
        sections_after)%list ++ nl.

End Engine.

(** The file system as [main] sees it: the text of the file at a path,
    [None] where there is none. *)
Definition FileSystem : Type := string -> option string.

Definition readFileSync (path : string) (fs : FileSystem) : option string :=
  fs path.

(** [writeFileSync(path, content)]: the file system with the file
    replaced, or [None] when the call throws because the host does not
    let the file be written (its directory is missing, permission is
    denied); [writable] tells of which paths the host lets the script
    write the file. *)
Definition writeFileSync (writable : string -> bool) (path content : string)
    (fs : FileSystem) : option FileSystem :=
  if writable path
  then Some (fun p => if String.eqb p path then Some content else fs p)
  else None.

(** How a run of the script ends, with the file system it leaves
    behind: it reaches the end of [main], or an exception ends it. *)
Inductive outcome : Type :=
| Finished (fs : FileSystem)
| Threw (fs : FileSystem).

Section Main.

(** The directory above the script's ([ROOT]); [JSON.parse] followed by
    the reading of [grammar.repository] ([None] where the text is not
    JSON or has no [repository] object, and the script throws); the
    sort of the engine; and the paths the host lets the script write. *)
Variable ROOT : string.
Variable parse_grammar : string -> option TmGrammar.
Variable engine_sort : list string -> list string.
Variable writable : string -> bool.

Definition path_join (dir rel : string) : string := dir ++ "/" ++ rel.

Definition TM_GRAMMAR_PATH : string :=
  path_join ROOT "node_modules/vscode-wolfram/syntaxes/wolfram.tmLanguage.json".
Definition HIGHLIGHTS_OUT : string :=
  path_join ROOT "languages/wolfram/highlights.scm".
Definition BRACKETS_OUT : string :=
  path_join ROOT "languages/wolfram/brackets.scm".

(** [main()].  It throws when the grammar file cannot be read or is not
    a grammar, before anything is written, and when one of the two
    files cannot be written: at the second one the highlights file has
    been replaced already.  The progress lines printed with
    [console.log] are left out. *)
Definition main (fs : FileSystem) : outcome :=
  match readFileSync TM_GRAMMAR_PATH fs with
  | None => Threw fs
  | Some text =>
      match parse_grammar text with
      | None => Threw fs
      | Some grammar =>
          let highlights := highlights_document_by engine_sort grammar in
          match writeFileSync writable HIGHLIGHTS_OUT highlights fs with
          | None => Threw fs
          | Some fs =>
              let brackets := brackets_document in
              match writeFileSync writable BRACKETS_OUT brackets fs with
              | None => Threw fs
              | Some fs => Finished fs
              end
          end
      end
  end.

End Main.

(** *** Notions used in the statements about the expansion *)

(** [splitTopLevel] with the piece being read kept as a string instead
    of as a pair of indices; shown equal to it in
    [splitTopLevel_by_pieces]. *)
Fixpoint split_acc (todo : string) (depth : Z) (cur : string) : list string :=
  match todo with
  | EmptyString => [cur]
  | String c todo' =>
      if Ascii.eqb c LP then
        split_acc todo' (depth + 1)%Z (cur ++ String c EmptyString)
      else if Ascii.eqb c RP then
        split_acc todo' (depth - 1)%Z (cur ++ String c EmptyString)
      else if Ascii.eqb c BAR && (depth =? 0)%Z then
        cur :: split_acc todo' depth EmptyString
      else
        split_acc todo' depth (cur ++ String c EmptyString)
  end.

(** One call of [doExpand] on [s], with [rec] for what the recursive
    calls append: the names the call appends. *)
Definition expand_step (s : string) (rec : string -> list string) : list string :=
  match doExpand_scan s 0 0%Z None with
  | TopLevelBar => flat_map rec (splitTopLevel s)
  | ScanDone None => push_nonempty [] s
  | ScanDone (Some parenStart) =>
      let prefix := js_substring s 0 parenStart in
      match doExpand_close (js_substring_from s parenStart) parenStart 0%Z with
      | None => push_nonempty [] prefix
      | Some parenEnd =>
          let inner := js_substring s (parenStart + 1) parenEnd in
          let suffix := js_substring_from s (parenEnd + 1) in
          let inner := if startsWith inner "?:"
                       then js_substring_from inner 2 else inner in
          flat_map (fun alt => rec (prefix ++ alt ++ suffix)) (splitTopLevel inner)
      end
  end.

(** A string without parentheses and bars. *)
Definition plain_char (c : ascii) : bool :=
  negb (Ascii.eqb c LP || Ascii.eqb c RP || Ascii.eqb c BAR).

Definition plain (s : string) : bool := all_chars plain_char s.

Definition nonempty (s : string) : bool := 0 <? String.length s.

(** A trie of names, the way the grammar compresses them: a leaf is the
    rest of a name, a branch is a shared piece followed by a
    non-capturing group of at least one alternative. *)
Inductive trie : Type :=
| Leaf (lit : string)
| Branch (lit : string) (children : tries)
with tries : Type :=
| One (t : trie)
| More (t : trie) (ts : tries).

(** The expression of a trie, e.g. [X(?:ML(?:Element|Object)|or)]. *)
Fixpoint print (t : trie) : string :=
  match t with
  | Leaf lit => lit
  | Branch lit children => lit ++ "(?:" ++ print_all children ++ ")"
  end
with print_all (ts : tries) : string :=
  match ts with
  | One t => print t
  | More t ts' => print t ++ "|" ++ print_all ts'
  end.

(** The names of a trie, in the order of its leaves. *)
Fixpoint names_of (t : trie) : list string :=
  match t with
  | Leaf lit => [lit]
  | Branch lit children => map (append lit) (names_of_all children)
  end
with names_of_all (ts : tries) : list string :=
  match ts with
  | One t => names_of t
  | More t ts' => (names_of t ++ names_of_all ts')%list
  end.

(** Every piece of the trie satisfies [p]. *)
Fixpoint pieces (p : string -> bool) (t : trie) : bool :=
  match t with
  | Leaf lit => p lit
  | Branch lit children => p lit && pieces_all p children
  end
with pieces_all (p : string -> bool) (ts : tries) : bool :=
  match ts with
  | One t => pieces p t
  | More t ts' => pieces p t && pieces_all p ts'
  end.

(** The expressions of the alternatives of a group, one by one. *)
Fixpoint prints (ts : tries) : list string :=
  match ts with
  | One t => [print t]
  | More t ts' => print t :: prints ts'
  end.

Scheme trie_tries_ind := Induction for trie Sort Prop
  with tries_trie_ind := Induction for tries Sort Prop.

Combined Scheme trie_mutual_ind from trie_tries_ind, tries_trie_ind.

(** The index of the parenthesis the first loop of [doExpand] holds
    after the expression of [t], read at depth 0 from index [i] on. *)
Definition top_paren (t : trie) (i : nat) (parenStart : option nat) : option nat :=
  match t with
  | Leaf _ => parenStart
  | Branch lit _ => Some (i + String.length lit)
  end.

(** A shared piece followed by the group of its alternatives. *)
Definition group_expr (p : string) (ts : tries) : string :=
  p ++ "(?:" ++ print_all ts ++ ")".

(** A string without exclamation marks. *)
Definition no_bang (s : string) : bool :=
  all_chars (fun c => negb (Ascii.eqb c "!")) s.

(** A match expression of the grammar: the namespace prefix, the trie of
    the names in a non-capturing group, and the guard against a longer
    identifier with the characters [cls] in its class. *)
Definition grammar_pattern (ts : tries) (cls : string) : string :=
  "System`" ++ ("(?:" ++ print_all ts ++ ")") ++ "(?![" ++ cls ++ "])".

(** *** Notions used in the statements about the blocks *)

(** Every batch but the first starts with a name that did not fit into
    the batch before it. *)
Fixpoint tight (maxRegexLen : nat) (batches : list (list string)) : Prop :=
  match batches with
  | b1 :: ((b2 :: _) as later) =>
      match b2 with
      | n :: _ => maxRegexLen < weight b1 + String.length n + 1
      | [] => False
      end /\ tight maxRegexLen later
  | _ => True
  end.

(** *** Notions used in the statements about the scopes *)

(** [grammar.repository.symbols?.patterns ?? []] *)
Definition symbolPatterns (grammar : TmGrammar) : list TmPattern :=
  match symbols_patterns grammar with Some ps => ps | None => [] end.

(** The names one pattern gives to [scope]: those of its expression
    when the pattern has an expression and this scope name, none
    otherwise. *)
Definition names_in_scope (scope : string) (pattern : TmPattern) : list string :=
  match truthy (tm_match pattern), truthy (tm_name pattern) with
  | Some mt, Some sc => if String.eqb sc scope then extractSymbolNames mt else []
  | _, _ => []
  end.

Definition scope_names (scope : string) (patterns : list TmPattern) : list string :=
  flat_map (names_in_scope scope) patterns.

(** A pattern whose scope [SCOPE_MAP] gives a capture name. *)
Definition highlighted (pattern : TmPattern) : bool :=
  match tm_name pattern with
  | Some sc =>
      existsb (fun entry => String.eqb (fst entry) sc &&
                            match snd entry with Some _ => true | None => false end)
              SCOPE_MAP
  | None => false
  end.

(** *** Notions used in the statement about the order of the rules *)

(** [needle] occurs in [hay] at offset [i]. *)
Fixpoint occurs_at (needle hay : string) (i : nat) {struct i} : bool :=
  match i with
  | O => startsWith hay needle
  | S i' =>
      match hay with
      | EmptyString => false
      | String _ hay' => occurs_at needle hay' i'
      end
  end.

(** [needle] occurs in [hay] somewhere. *)
Definition occurs_in (needle hay : string) : Prop :=
  exists x y, hay = x ++ needle ++ y.

(** No occurrence of [needle] in [hay] starts at an offset below [n]. *)
Definition none_below (needle hay : string) (n : nat) : bool :=
  forallb (fun j => negb (occurs_at needle hay j)) (seq 0 n).

(** The text in front of the fallback section, and the text of the
    fixed sections behind it. *)
Definition before_fallback : string :=
  join (nl ++ nl)
       [section_header; section_comments; section_strings; section_numbers] ++
  nl ++ nl.

Definition behind_fallback : string :=
  nl ++ nl ++ join (nl ++ nl) [section_calls; section_system_variables].

(** *** A small grammar and file system, for examples *)

Definition sample_grammar : TmGrammar :=
  {| symbols_patterns :=
       Some [ {| tm_match := Some "System`(?:A(?:bs|dd))(?![`$[:alnum:]])";
                 tm_name := Some "support.function.builtin.wolfram" |};
              {| tm_match := Some "Pi|E";
                 tm_name := Some "constant.language.wolfram" |};
              {| tm_match := None; tm_name := Some "comment.wolfram" |} ] |}.

Definition sample_parse (text : string) : option TmGrammar :=
  if String.eqb text "{}" then None else Some sample_grammar.

(** A host on which the directory of the two output files is there and
    may be written to, and one on which it is missing. *)
Definition sample_writable (path : string) : bool :=
  startsWith path "/repo/languages/wolfram/".

Definition sample_unwritable (path : string) : bool := false.

(** Two file systems with the same grammar file: one holds no other
    file, the other holds an older highlights file as well. *)
Definition sample_fs_fresh : FileSystem :=
  fun p => if String.eqb p (TM_GRAMMAR_PATH "/repo") then Some "grammar" else None.

Definition sample_fs_used : FileSystem :=
  fun p => if String.eqb p (TM_GRAMMAR_PATH "/repo") then Some "grammar"
           else if String.eqb p (HIGHLIGHTS_OUT "/repo") then Some "old"
           else None.

(** A string of at most [b] characters. *)
Definition shorter_than (b : nat) (p : string) : Prop := String.length p <= b.

End Generator.

(* ================================================================== *)
(** ** The patterns of the match blocks, as the engine reads them      *)
(* ================================================================== *)

(** The [#match?] predicate of a block is evaluated by the highlighting
    engine, outside this repository: it holds of a node when the pattern
    matches somewhere in the text of the node.  A pattern that
    [formatMatchBlock] builds from symbol names holds letters, digits and
    these operators of the regular expression syntax: the group, the
    alternation bar, the anchor for the start of the text and the anchor
    for its end (the dollar sign).  This is their standard reading; a
    pattern with any other operator is not read. *)
Module Regex.

Local Open Scope string_scope.
Local Open Scope nat_scope.

Inductive regex : Type :=
| Empty
| Char (c : ascii)
| StartOfText
| EndOfText
| Seq (r1 r2 : regex)
| Alt (r1 r2 : regex).

(** Operators outside the fragment. *)
Definition unsupported (c : ascii) : bool :=
  existsb (Ascii.eqb c) (list_ascii_of_string ".*+?[]{}\").

(** Recursive descent; [alternation] tells whether an alternation or a
    single sequence is to be read.  Returns what is left of the pattern. *)
Fixpoint parse (fuel : nat) (alternation : bool) (s : string)
  : option (regex * string) :=
  match fuel with
  | O => None
  | S fuel' =>
      if alternation then
        match parse fuel' false s with
        | Some (r1, String c s1) =>
            if Ascii.eqb c "|" then
              match parse fuel' true s1 with
              | Some (r2, s2) => Some (Alt r1 r2, s2)
              | None => None
              end
            else Some (r1, String c s1)
        | other => other
        end
      else
        match s with
        | EmptyString => Some (Empty, s)
        | String c s1 =>
            if Ascii.eqb c "|" || Ascii.eqb c ")" then Some (Empty, s)
            else if unsupported c then None
            else
              let atom :=
                if Ascii.eqb c "(" then
                  match parse fuel' true s1 with
                  | Some (r, String c' s2) =>
                      if Ascii.eqb c' ")" then Some (r, s2) else None
                  | _ => None
                  end
                else if Ascii.eqb c "^" then Some (StartOfText, s1)
                else if Ascii.eqb c "$" then Some (EndOfText, s1)
                else Some (Char c, s1) in
              match atom with
              | Some (a, s2) =>
                  match parse fuel' false s2 with
                  | Some (r, s3) => Some (Seq a r, s3)
                  | None => None
                  end
              | None => None
              end
        end
  end.

Definition parse_regex (pattern : string) : option regex :=
  match parse (2 * String.length pattern + 2) true pattern with
  | Some (r, EmptyString) => Some r
  | _ => None
  end.

(** Does [r] match a prefix of [text] such that [k] accepts the rest?
    [at_start] tells whether [text] is the whole text of the node. *)
Fixpoint accepts (r : regex) (at_start : bool) (text : string)
    (k : bool -> string -> bool) : bool :=
  match r with
  | Empty => k at_start text
  | Char c =>
      match text with
      | String c' text' => Ascii.eqb c c' && k false text'
      | EmptyString => false
      end
  | StartOfText => at_start && k at_start text
  | EndOfText =>
      match text with
      | EmptyString => k at_start text
      | String _ _ => false
      end
  | Seq r1 r2 => accepts r1 at_start text (fun b t => accepts r2 b t k)
  | Alt r1 r2 => accepts r1 at_start text k || accepts r2 at_start text k
  end.

(** A match that starts anywhere in the text. *)
Fixpoint search (r : regex) (at_start : bool) (text : string) : bool :=
  accepts r at_start text (fun _ _ => true) ||
  match text with
  | EmptyString => false
  | String _ text' => search r false text'
  end.

(** [None] when the pattern is outside the fragment. *)
Definition is_match (pattern text : string) : option bool :=
  option_map (fun r => search r true text) (parse_regex pattern).

(** The expression a block's pattern is read as, when its names hold
    letters and digits only: every character stands for itself. *)
Fixpoint literal (name : string) : regex :=
  match name with
  | EmptyString => Empty
  | String c name' => Seq (Char c) (literal name')
  end.

Fixpoint alternatives (names : list string) : regex :=
  match names with
  | [] => Empty
  | [n] => literal n
  | n :: names' => Alt (literal n) (alternatives names')
  end.

Definition block_ast (names : list string) : regex :=
  Seq StartOfText (Seq (alternatives names) (Seq EndOfText Empty)).

(** [text] without its prefix [p], when it starts with [p]. *)
Fixpoint drop_prefix (p text : string) : option string :=
  match p with
  | EmptyString => Some text
  | String c p' =>
      match text with
      | String c' text' => if Ascii.eqb c c' then drop_prefix p' text' else None
      | EmptyString => None
      end
  end.

(** Letters and digits. *)
Definition alnum (c : ascii) : bool :=
  let n := nat_of_ascii c in
  ((65 <=? n) && (n <=? 90)) || ((97 <=? n) && (n <=? 122)) ||
  ((48 <=? n) && (n <=? 57)).

Fixpoint all_alnum (s : string) : bool :=
  match s with
  | EmptyString => true
  | String c s' => alnum c && all_alnum s'
  end.

(** Where a sequence ends: at the end of the pattern, at a bar or at a
    closing parenthesis. *)
Definition stops (tail : string) : Prop :=
  match tail with
  | EmptyString => True
  | String c _ => Ascii.eqb c "|" || Ascii.eqb c ")" = true
  end.

End Regex.


(* ================================================================== *)
(** ** Properties of the scanner                                       *)
(* ================================================================== *)

Module ScannerFacts.
Import Scanner.

(** An iteration that goes round again has consumed exactly one
    character and left the token slots alone. *)
Lemma body_continue depth lexer depth' lexer' :
  eof lexer = false ->
  scan_comment_body depth lexer = Continue depth' lexer' ->
  S (length (rest lexer')) = length (rest lexer) /\
  position lexer' = S (position lexer) /\
  token_start lexer' = token_start lexer /\
  marked_end lexer' = marked_end lexer /\
  result_symbol lexer' = result_symbol lexer /\
  (0 < depth -> 0 < depth')%Z.
Proof.
  unfold scan_comment_body, lookahead, eof, advance.
  destruct lexer as [[|c r] p ts me rs]; cbn; [discriminate|].
  intros _.
  destruct (c =? STAR)%Z.
  - destruct r as [|c' r']; cbn.
    + intros H; inversion H; subst; cbn; repeat split; auto.
    + destruct (c' =? RPAREN)%Z.
      * destruct (depth - 1 =? 0)%Z eqn:E; [discriminate|].
        intros H; inversion H; subst; cbn; repeat split; auto.
        apply Z.eqb_neq in E. lia.
      * intros H; inversion H; subst; cbn; repeat split; auto.
  - destruct (c =? LPAREN)%Z.
    + destruct r as [|c' r']; cbn.
      * intros H; inversion H; subst; cbn; repeat split; auto.
      * destruct (c' =? STAR)%Z;
          intros H; inversion H; subst; cbn; repeat split; auto; try lia.
    + intros H; inversion H; subst; cbn; repeat split; auto.
Qed.

(** The loop returns: the fuel [scan_comment] gives is enough. *)
Lemma scan_comment_loop_returns fuel : forall depth lexer,
  (length (rest lexer) < fuel)%nat ->
  exists r, scan_comment_loop fuel depth lexer = Some r.
Proof.
  induction fuel as [|fuel IH]; intros depth lexer Hlen; [lia|].
  cbn [scan_comment_loop].
  destruct (eof lexer) eqn:Heof; [eauto|].
  destruct (scan_comment_body depth lexer) as [b l'|d' l'] eqn:Hbody; [eauto|].
  apply IH.
  destruct (body_continue _ _ _ _ Heof Hbody) as (Hl & _). lia.
Qed.

Lemma scan_comment_returns lexer :
  exists r, scan_comment lexer = Some r.
Proof. apply scan_comment_loop_returns. lia. Qed.

(** Iterations that go round again are a prefix of every longer run. *)
Lemma loop_after_iterate n : forall depth lexer depth' lexer' fuel,
  iterate n depth lexer = Some (depth', lexer') ->
  scan_comment_loop (n + fuel) depth lexer = scan_comment_loop fuel depth' lexer'.
Proof.
  induction n as [|n IH]; intros depth lexer depth' lexer' fuel; cbn.
  - intros H; inversion H; reflexivity.
  - destruct (eof lexer); [discriminate|].
    destruct (scan_comment_body depth lexer); [discriminate|].
    apply IH.
Qed.

Lemma iterate_invariant n : forall depth lexer depth' lexer',
  iterate n depth lexer = Some (depth', lexer') ->
  (length (rest lexer') + n = length (rest lexer))%nat /\
  position lexer' = (position lexer + n)%nat /\
  token_start lexer' = token_start lexer /\
  marked_end lexer' = marked_end lexer /\
  result_symbol lexer' = result_symbol lexer /\
  (0 < depth -> 0 < depth')%Z.
Proof.
  induction n as [|n IH]; intros depth lexer depth' lexer'; cbn.
  - intros H; inversion H; subst. repeat split; auto; try lia.
  - destruct (eof lexer) eqn:Heof; [discriminate|].
    destruct (scan_comment_body depth lexer) as [|d1 l1] eqn:Hbody; [discriminate|].
    intros H. apply IH in H.
    destruct (body_continue _ _ _ _ Heof Hbody) as (A1 & A2 & A3 & A4 & A5 & A6).
    destruct H as (B1 & B2 & B3 & B4 & B5 & B6).
    repeat split; try congruence; try lia; auto.
Qed.

(** *** The loop against the nesting of the specification *)

Lemma matching_close_cons2 c c' s2 nesting pos :
  spec_matching_close nesting (c :: c' :: s2) pos =
  if (c =? LPAREN)%Z && (c' =? STAR)%Z then
    spec_matching_close (S nesting) s2 (pos + 2)
  else if (c =? STAR)%Z && (c' =? RPAREN)%Z then
    match nesting with
    | O => Some (pos + 2)%nat
    | S n => spec_matching_close n s2 (pos + 2)
    end
  else spec_matching_close nesting (c' :: s2) (pos + 1).
Proof. reflexivity. Qed.

Lemma matching_close_bounds n : forall s nesting pos e,
  (length s <= n)%nat ->
  spec_matching_close nesting s pos = Some e ->
  (pos + 2 <= e <= pos + length s)%nat.
Proof.
  induction n as [|n IH]; intros [|c [|c' s2]] nesting pos e Hn;
    try discriminate; cbn [length] in Hn; try lia.
  rewrite matching_close_cons2.
  destruct ((c =? LPAREN)%Z && (c' =? STAR)%Z).
  - intros H. apply IH in H; cbn [length]; lia.
  - destruct ((c =? STAR)%Z && (c' =? RPAREN)%Z).
    + destruct nesting.
      * intros H; inversion H; subst. cbn [length]. lia.
      * intros H. apply IH in H; cbn [length]; lia.
    + intros H. apply IH in H; cbn [length] in *; lia.
Qed.

Lemma skipn_step {A} (c : A) (s : list A) p e :
  (p + 1 <= e)%nat -> skipn (e - p) (c :: s) = skipn (e - (p + 1)) s.
Proof.
  intros H. replace (e - p)%nat with (S (e - (p + 1))) by lia. reflexivity.
Qed.

(** On an input without an opening delimiter directly followed by
    [RPAREN], the loop of [scan_comment] finds exactly the closing
    delimiter the specification's nesting designates, and fails exactly
    when there is none. *)
Lemma loop_finds_matching_close n : forall body nesting p ts me rs fuel,
  (length body <= n)%nat ->
  has_open_close body = false ->
  (length body < fuel)%nat ->
  scan_comment_loop fuel (Z.of_nat (S nesting))
    {| rest := body; position := p; token_start := ts;
       marked_end := me; result_symbol := rs |} =
  Some (loop_outcome nesting body p ts me rs).
Proof.
  induction n as [|n IH]; intros body nesting p ts me rs fuel Hn Hoc Hfuel.
  { destruct body; [|cbn in Hn; lia].
    destruct fuel; [lia|]. cbn. unfold loop_outcome; cbn.
    rewrite Nat.add_0_r. reflexivity. }
  destruct body as [|c s1].
  { destruct fuel; [lia|]. cbn. unfold loop_outcome; cbn.
    rewrite Nat.add_0_r. reflexivity. }
  destruct fuel as [|fuel]; [lia|].
  cbn [length] in Hn, Hfuel.
  cbn [has_open_close] in Hoc. apply orb_false_iff in Hoc as [Hhere Hoc].
  cbn [scan_comment_loop eof rest].
  unfold scan_comment_body, lookahead, advance.
  cbn [rest position token_start marked_end result_symbol peek].
  destruct (c =? STAR)%Z eqn:Hstar; [apply Z.eqb_eq in Hstar; subst c|].
  - (* STAR *)
    destruct s1 as [|c' s2].
    + cbn [peek]. change (0 =? RPAREN)%Z with false. cbv iota.
      rewrite (IH [] nesting) by (auto; cbn; lia).
      unfold loop_outcome; cbn. do 3 f_equal. lia.
    + cbn [peek].
      destruct (c' =? RPAREN)%Z eqn:Hrp; [apply Z.eqb_eq in Hrp; subst c'|].
      * destruct nesting as [|k].
        -- cbn. unfold loop_outcome; cbn.
           replace (p + 2 - p)%nat with 2%nat by lia.
           replace (p + 2)%nat with (S (S p)) by lia. reflexivity.
        -- replace (Z.of_nat (S (S k)) - 1 =? 0)%Z with false
             by (symmetry; apply Z.eqb_neq; lia).
           cbv iota.
           replace (Z.of_nat (S (S k)) - 1)%Z with (Z.of_nat (S k)) by lia.
           destruct fuel as [|fuel]; [cbn in Hfuel; lia|].
           cbn [scan_comment_loop eof rest].
           unfold scan_comment_body, lookahead, advance.
           cbn [rest position token_start marked_end result_symbol peek].
           change (RPAREN =? STAR)%Z with false.
           change (RPAREN =? LPAREN)%Z with false. cbv iota.
           cbn [has_open_close] in Hoc.
           apply orb_false_iff in Hoc as [_ Hoc].
           rewrite (IH s2 k) by (auto; cbn [length] in *; lia).
           unfold loop_outcome. rewrite matching_close_cons2.
           change ((STAR =? LPAREN)%Z && (RPAREN =? STAR)%Z) with false.
           change ((STAR =? STAR)%Z && (RPAREN =? RPAREN)%Z) with true.
           cbv iota.
           replace (S (S p)) with (p + 2)%nat by lia.
           destruct (spec_matching_close k s2 (p + 2)) as [e|] eqn:He.
           ++ apply (matching_close_bounds _ _ _ _ _ (le_n _)) in He.
              rewrite (skipn_step STAR) by lia.
              rewrite (skipn_step RPAREN) by lia.
              do 3 f_equal. f_equal. lia.
           ++ do 3 f_equal. cbn [length]. lia.
      *         rewrite (IH (c' :: s2) nesting) by (auto; cbn [length] in *; lia).
        unfold loop_outcome. rewrite matching_close_cons2.
        change ((STAR =? LPAREN)%Z) with false.
        change ((STAR =? STAR)%Z) with true.
        cbn [andb]. rewrite Hrp.
        replace (S p) with (p + 1)%nat by lia.
        destruct (spec_matching_close nesting (c' :: s2) (p + 1)) as [e|] eqn:He.
        -- apply (matching_close_bounds _ _ _ _ _ (le_n _)) in He.
           rewrite (skipn_step STAR) by lia. reflexivity.
        -- do 3 f_equal. cbn [length]. lia.
  - destruct (c =? LPAREN)%Z eqn:Hlp; [apply Z.eqb_eq in Hlp; subst c|].
    + (* LPAREN *)
      destruct s1 as [|c' s2].
      * cbn [peek]. change (0 =? STAR)%Z with false. cbv iota.
        rewrite (IH [] nesting) by (auto; cbn; lia).
        unfold loop_outcome; cbn. do 3 f_equal. lia.
      * cbn [peek].
        destruct (c' =? STAR)%Z eqn:Hst; [apply Z.eqb_eq in Hst; subst c'|].
        -- (* a nested opening delimiter: the star is read again *)
           destruct fuel as [|fuel]; [cbn in Hfuel; lia|].
           cbn [scan_comment_loop eof rest].
           unfold scan_comment_body, lookahead, advance.
           cbn [rest position token_start marked_end result_symbol peek].
           change (STAR =? STAR)%Z with true. cbv iota.
           assert (Hnext : (peek s2 =? RPAREN)%Z = false).
           { destruct s2 as [|c2 s3]; [reflexivity|].
             cbn in Hhere. cbn. exact Hhere. }
           rewrite Hnext.
           cbn [has_open_close] in Hoc.
           apply orb_false_iff in Hoc as [_ Hoc].
           replace (Z.of_nat (S nesting) + 1)%Z with (Z.of_nat (S (S nesting))) by lia.
           rewrite (IH s2 (S nesting)) by (auto; cbn [length] in *; lia).
           unfold loop_outcome. rewrite matching_close_cons2.
           change ((LPAREN =? LPAREN)%Z && (STAR =? STAR)%Z) with true.
           cbv iota.
           replace (S (S p)) with (p + 2)%nat by lia.
           destruct (spec_matching_close (S nesting) s2 (p + 2)) as [e|] eqn:He.
           ++ apply (matching_close_bounds _ _ _ _ _ (le_n _)) in He.
              rewrite (skipn_step LPAREN) by lia.
              rewrite (skipn_step STAR) by lia.
              do 3 f_equal. f_equal. lia.
           ++ do 3 f_equal. cbn [length]. lia.
        -- rewrite (IH (c' :: s2) nesting) by (auto; cbn [length] in *; lia).
           unfold loop_outcome. rewrite matching_close_cons2.
           change ((LPAREN =? LPAREN)%Z) with true.
           change ((LPAREN =? STAR)%Z) with false.
           cbn [andb]. rewrite Hst.
           replace (S p) with (p + 1)%nat by lia.
           destruct (spec_matching_close nesting (c' :: s2) (p + 1)) as [e|] eqn:He.
           ++ apply (matching_close_bounds _ _ _ _ _ (le_n _)) in He.
              rewrite (skipn_step LPAREN) by lia. reflexivity.
           ++ do 3 f_equal. cbn [length]. lia.
    + (* any other character *)
      rewrite (IH s1 nesting) by (auto; lia).
      unfold loop_outcome.
      replace (S p) with (p + 1)%nat by lia.
      destruct s1 as [|c' s2].
      * cbn. do 3 f_equal. lia.
      * rewrite matching_close_cons2. rewrite Hstar, Hlp. cbn [andb].
        destruct (spec_matching_close nesting (c' :: s2) (p + 1)) as [e|] eqn:He.
        -- apply (matching_close_bounds _ _ _ _ _ (le_n _)) in He.
           rewrite (skipn_step c) by lia. reflexivity.
        -- do 3 f_equal. cbn [length]. lia.
Qed.

Section Entry.

Variable iswspace : Z -> bool.

(** The white-space loop stops in front of the first character that is
    not white space, having skipped everything before it. *)
Lemma skip_whitespace_stops ws : forall r p ts me rs fuel,
  forallb iswspace ws = true ->
  iswspace (peek r) = false ->
  (length ws < fuel)%nat ->
  skip_whitespace iswspace fuel
    {| rest := ws ++ r; position := p; token_start := ts;
       marked_end := me; result_symbol := rs |} =
  Some {| rest := r; position := p + length ws;
          token_start := match ws with [] => ts | _ => p + length ws end;
          marked_end := me; result_symbol := rs |}.
Proof.
  induction ws as [|w ws IH]; intros r p ts me rs fuel Hws Hr Hfuel.
  - destruct fuel; [cbn in Hfuel; lia|].
    cbn. unfold lookahead; cbn. rewrite Hr, Nat.add_0_r. reflexivity.
  - destruct fuel; [lia|].
    cbn in Hws. apply andb_true_iff in Hws as [Hw Hws].
    cbn. unfold lookahead; cbn. rewrite Hw.
    unfold advance; cbn.
    rewrite IH by (auto; cbn in Hfuel; lia).
    f_equal. f_equal; destruct ws; cbn; lia.
Qed.

Lemma skip_whitespace_on ws r :
  forallb iswspace ws = true ->
  iswspace (peek r) = false ->
  skip_whitespace iswspace (S (length (ws ++ r))) (lexer_on (ws ++ r)) =
  Some {| rest := r; position := length ws; token_start := length ws;
          marked_end := None; result_symbol := None |}.
Proof.
  intros Hws Hr. unfold lexer_on.
  rewrite skip_whitespace_stops by (auto; rewrite length_app; lia).
  f_equal. f_equal. destruct ws; reflexivity.
Qed.

(** On white space followed by the opening delimiter the entry point
    hands over to [scan_comment]. *)
Lemma scan_opens ws body :
  iswspace LPAREN = false ->
  forallb iswspace ws = true ->
  tree_sitter_wolfram_external_scanner_scan iswspace
    (lexer_on (ws ++ LPAREN :: STAR :: body)) =
  scan_comment (comment_opened ws body).
Proof.
  intros Hp Hws. unfold tree_sitter_wolfram_external_scanner_scan.
  cbn [rest lexer_on].
  rewrite skip_whitespace_on by auto.
  unfold comment_opened.
  replace (length ws + 2)%nat with (S (S (length ws))) by lia.
  reflexivity.
Qed.

(** The depth of a running scan never drops to zero: it is greater
    than zero at every end of input the loop can reach. *)
Lemma depth_stays_positive ws body n depth lexer :
  iterate n 1 (comment_opened ws body) = Some (depth, lexer) ->
  (0 < depth)%Z.
Proof.
  intros Hit. apply iterate_invariant in Hit.
  destruct Hit as (_ & _ & _ & _ & _ & H). apply H. lia.
Qed.

(** C9.  A parenthesis that opens no comment is consumed all the same.
    When the first character after the white space [ws] is [LPAREN] and
    the next one is not [STAR], the entry point returns [false] with no
    token, the cursor one character past the parenthesis and the start
    of the token still in front of it; when the first character after
    the white space is not [LPAREN], it returns [false] with the cursor
    right after the white space. *)
Theorem scan_consumes_lone_paren ws r1 r2 :
  iswspace LPAREN = false ->
  forallb iswspace ws = true ->
  peek r1 <> STAR ->
  iswspace (peek r2) = false ->
  peek r2 <> LPAREN ->
  tree_sitter_wolfram_external_scanner_scan iswspace
    (lexer_on (ws ++ LPAREN :: r1)) =
    Some (false, {| rest := r1; position := S (length ws);
                    token_start := length ws;
                    marked_end := None; result_symbol := None |})
  /\
  tree_sitter_wolfram_external_scanner_scan iswspace
    (lexer_on (ws ++ r2)) =
    Some (false, {| rest := r2; position := length ws;
                    token_start := length ws;
                    marked_end := None; result_symbol := None |}).
Proof.
  intros Hp Hws H1 H2 H3. split.
  - unfold tree_sitter_wolfram_external_scanner_scan.
    cbn [rest lexer_on].
    rewrite skip_whitespace_on by auto.
    unfold lookahead, advance; cbn.
    apply Z.eqb_neq in H1. rewrite H1. reflexivity.
  - unfold tree_sitter_wolfram_external_scanner_scan.
    cbn [rest lexer_on].
    rewrite skip_whitespace_on by auto.
    unfold lookahead; cbn [rest].
    apply Z.eqb_neq in H3. rewrite H3. reflexivity.
Qed.

(** X4.  With no opening delimiter directly followed by [RPAREN] in the
    body of the comment, the scan produces the comment token that ends at the
    matching closing delimiter of the specification, and no token when
    there is none. *)
Lemma scan_finds_matching_close ws body :
  iswspace LPAREN = false ->
  forallb iswspace ws = true ->
  has_open_close body = false ->
  tokenize iswspace (ws ++ LPAREN :: STAR :: body) =
  Some (match spec_matching_close 0 body (length ws + 2) with
        | Some e => Token COMMENT (length ws) e
        | None => NoToken
        end).
Proof.
  intros Hp Hws Hoc. unfold tokenize.
  rewrite scan_opens by assumption.
  unfold scan_comment, comment_opened. cbn [rest].
  change 1%Z with (Z.of_nat 1).
  rewrite (loop_finds_matching_close (length body)) by (auto; lia).
  unfold loop_outcome.
  destruct (spec_matching_close 0 body (length ws + 2)); reflexivity.
Qed.

End Entry.

(** [  (x] and [  x]: two blanks are skipped in both, the parenthesis of
    the first is consumed on top. *)
Lemma scan_consumes_lone_paren_witness :
  tree_sitter_wolfram_external_scanner_scan iswspace_C (lexer_on (codes "  (x")) =
    Some (false, {| rest := codes "x"; position := 3; token_start := 2;
                    marked_end := None; result_symbol := None |})
  /\
  tree_sitter_wolfram_external_scanner_scan iswspace_C (lexer_on (codes "  x")) =
    Some (false, {| rest := codes "x"; position := 2; token_start := 2;
                    marked_end := None; result_symbol := None |}).
Proof.
  apply (scan_consumes_lone_paren iswspace_C (codes "  ") (codes "x") (codes "x")).
  - reflexivity.
  - reflexivity.
  - discriminate.
  - reflexivity.
  - discriminate.
Defined.

(** The nested comment of the specification's example is one token. *)
Lemma nested_comment_example :
  tokenize iswspace_C (codes "(* outer (* inner *) still outer *)") =
  Some (Token COMMENT 0 35) /\
  length (codes "(* outer (* inner *) still outer *)") = 35%nat.
Proof. split; reflexivity. Qed.

(** X5.  Inside a comment, an opening delimiter directly followed by
    [RPAREN] changes nothing: the depth goes up at the parenthesis, comes down
    again at the star, and the three characters are passed over. *)
Lemma open_close_is_passed_over depth s p ts me rs fuel :
  depth <> 0%Z ->
  scan_comment_loop (3 + fuel) depth
    {| rest := LPAREN :: STAR :: RPAREN :: s; position := p;
       token_start := ts; marked_end := me; result_symbol := rs |} =
  scan_comment_loop fuel depth
    {| rest := s; position := 3 + p;
       token_start := ts; marked_end := me; result_symbol := rs |}.
Proof.
  intros Hd. cbn [Nat.add scan_comment_loop eof rest].
  unfold scan_comment_body, lookahead, advance; cbn.
  replace (depth + 1 - 1 =? 0)%Z with false
    by (symmetry; apply Z.eqb_neq; lia).
  replace (depth + 1 - 1)%Z with depth by lia.
  reflexivity.
Qed.

(** C1, at the input "(* (*) *) *)".  The comment the input starts with
    ends, by the nesting of the specification, at offset 12, the end of
    the input: the second opening delimiter is closed at offset 9 and the
    first at offset 12.  The scanner returns a comment token that ends at
    offset 9. *)
Theorem comment_token_ends_early :
  spec_comment_end (codes "(* (*) *) *)") = Some 12%nat /\
  tokenize iswspace_C (codes "(* (*) *) *)") = Some (Token COMMENT 0 9).
Proof. split; reflexivity. Qed.

(** C2, at the input "(*(*)*)".  In front of the nested opening delimiter
    at depth 1, one iteration consumes the parenthesis alone and raises
    the depth to 2; the next iteration reads the star that was left and,
    finding [RPAREN] behind it, lowers the depth to 1 again.  The scan
    returns the whole input as a comment, where the nesting of the
    specification leaves the outer comment open. *)
Theorem nested_open_leaves_star :
  scan_comment_body 1
    {| rest := codes "(*)*)"; position := 2; token_start := 0;
       marked_end := None; result_symbol := None |} =
  Continue 2
    {| rest := codes "*)*)"; position := 3; token_start := 0;
       marked_end := None; result_symbol := None |} /\
  scan_comment_body 2
    {| rest := codes "*)*)"; position := 3; token_start := 0;
       marked_end := None; result_symbol := None |} =
  Continue 1
    {| rest := codes ")*)"; position := 4; token_start := 0;
       marked_end := None; result_symbol := None |} /\
  tokenize iswspace_C (codes "(*(*)*)") = Some (Token COMMENT 0 7) /\
  spec_comment_end (codes "(*(*)*)") = None.
Proof. repeat split; reflexivity. Qed.

(** C3, at the input "(*(*)*)".  A comment is opened, a second one is
    opened inside it, and one closing delimiter follows: by the nesting
    of the specification the end of the input is reached with one
    comment still open, and no closing delimiter matches the first
    opening one.  The scan does not fail: it returns [true] with the
    cursor at the end of the input and a comment token over all seven
    characters.  On the example of the specification, "(* unterminated",
    it fails and gives no token. *)
Theorem unterminated_nested_comment_yields_token :
  spec_open_at_end 0 (codes "(*)*)") = 1%nat /\
  spec_comment_end (codes "(*(*)*)") = None /\
  tree_sitter_wolfram_external_scanner_scan iswspace_C
    (lexer_on (codes "(*(*)*)")) =
    Some (true, {| rest := []; position := 7; token_start := 0;
                   marked_end := Some 7%nat; result_symbol := Some COMMENT |}) /\
  tokenize iswspace_C (codes "(*(*)*)") = Some (Token COMMENT 0 7) /\
  spec_open_at_end 0 (codes " unterminated") = 1%nat /\
  tokenize iswspace_C (codes "(* unterminated") = Some NoToken.
Proof. repeat split; reflexivity. Qed.

End ScannerFacts.

(* ================================================================== *)
(** ** Properties of the generator                                     *)
(* ================================================================== *)

Module GeneratorFacts.
Import Generator.
Local Open Scope string_scope.
Local Open Scope nat_scope.

(** *** Strings *)

Lemma length_append (a b : string) :
  String.length (a ++ b) = String.length a + String.length b.
Proof. induction a as [|c a IH]; cbn; [reflexivity | now rewrite IH]. Qed.

Lemma append_assoc (a b c : string) : (a ++ b) ++ c = a ++ b ++ c.
Proof. induction a as [|x a IH]; cbn; [reflexivity | now rewrite IH]. Qed.

Lemma substring_length_le : forall s n m,
  String.length (substring n m s) <= m /\
  String.length (substring n m s) <= String.length s - n.
Proof.
  induction s as [|c s IH]; intros n m.
  - destruct n, m; cbn; lia.
  - destruct n as [|n].
    + destruct m as [|m]; cbn; [lia|].
      destruct (IH 0 m). lia.
    + cbn. apply IH.
Qed.

Lemma substring_whole : forall s, substring 0 (String.length s) s = s.
Proof. induction s as [|c s IH]; cbn; [reflexivity | now rewrite IH]. Qed.

Lemma js_substring_length s a b :
  String.length (js_substring s a b) <= b - a.
Proof. apply substring_length_le. Qed.

Lemma js_substring_from_length s a :
  String.length (js_substring_from s a) <= String.length s - a.
Proof. apply substring_length_le. Qed.

(** *** Trie expansion *)

(** C4.  The two compressed expressions of the specification expand to
    exactly the names they were built from, each once. *)
Theorem expandTrie_examples :
  expandTrie "A(?:bs|dd|rg)" = ["Abs"; "Add"; "Arg"] /\
  expandTrie "X(?:ML(?:Element|Object)|YZColor|nor|or)" =
    ["XMLElement"; "XMLObject"; "XYZColor"; "Xnor"; "Xor"].
Proof. split; vm_compute; reflexivity. Qed.

(** **** [doExpand] returns

    Every recursive call of [doExpand] is on a strictly shorter string:
    a piece cut at a top-level bar, or the string with one group
    replaced by one of its alternatives. *)

Lemma split_loop_bound s b : forall todo i depth start parts,
  i + String.length todo = String.length s ->
  start <= i ->
  String.length s - start <= b ->
  Forall (shorter_than b) parts ->
  Forall (shorter_than b) (splitTopLevel_loop s todo i depth start parts).
Proof.
  induction todo as [|c todo IH]; intros i depth start parts Hi Hst Hb Hparts;
    cbn [splitTopLevel_loop].
  - apply Forall_app; split; [assumption|].
    constructor; [|constructor]. unfold shorter_than.
    pose proof (js_substring_from_length s start). lia.
  - cbn [String.length] in Hi.
    destruct (Ascii.eqb c LP); [apply IH; auto; lia|].
    destruct (Ascii.eqb c RP); [apply IH; auto; lia|].
    destruct (Ascii.eqb c BAR && (depth =? 0)%Z); [|apply IH; auto; lia].
    apply IH; try lia.
    apply Forall_app; split; [assumption|].
    constructor; [|constructor]. unfold shorter_than.
    pose proof (js_substring_length s start i). lia.
Qed.

Lemma splitTopLevel_bound s :
  Forall (shorter_than (String.length s)) (splitTopLevel s).
Proof.
  unfold splitTopLevel. apply split_loop_bound; auto; lia.
Qed.

(** When the first loop of [doExpand] stops at a top-level bar,
    [splitTopLevel] cuts there, and every piece is strictly shorter. *)
Lemma split_loop_strict s : forall todo i depth parenStart start parts,
  doExpand_scan todo i depth parenStart = TopLevelBar ->
  i + String.length todo = String.length s ->
  start <= i ->
  Forall (shorter_than (String.length s - 1)) parts ->
  Forall (shorter_than (String.length s - 1))
         (splitTopLevel_loop s todo i depth start parts).
Proof.
  induction todo as [|c todo IH]; intros i depth ps start parts Hscan Hi Hst Hparts;
    cbn [doExpand_scan splitTopLevel_loop] in *; [discriminate|].
  cbn [String.length] in Hi.
  destruct (Ascii.eqb c LP); [eapply IH; eauto; lia|].
  destruct (Ascii.eqb c RP); [eapply IH; eauto; lia|].
  destruct (Ascii.eqb c BAR && (depth =? 0)%Z); [|eapply IH; eauto; lia].
  apply split_loop_bound; try lia.
  apply Forall_app; split; [assumption|].
  constructor; [|constructor]. unfold shorter_than.
  pose proof (js_substring_length s start i). lia.
Qed.

Lemma doExpand_close_bound : forall todo i depth parenEnd,
  doExpand_close todo i depth = Some parenEnd ->
  i <= parenEnd < i + String.length todo.
Proof.
  induction todo as [|c todo IH]; intros i depth pe; cbn [doExpand_close];
    [discriminate|].
  cbn [String.length].
  destruct (Ascii.eqb c LP); [intros H; apply IH in H; lia|].
  destruct (Ascii.eqb c RP); [|intros H; apply IH in H; lia].
  destruct (depth - 1 =? 0)%Z; [intros H; inversion H; lia|].
  intros H; apply IH in H; lia.
Qed.

Lemma for_each_returns f alts :
  (forall alt, In alt alts -> forall r, exists r', f alt r = Some r') ->
  forall results, exists r', for_each f alts results = Some r'.
Proof.
  unfold for_each. induction alts as [|a alts IH]; intros Hf results; cbn.
  - eauto.
  - destruct (Hf a (or_introl eq_refl) results) as [r' Hr']. rewrite Hr'.
    apply IH. intros alt Hin. apply Hf. now right.
Qed.

(** The expansion returns: fuel above the length of the string is
    enough, whatever the string. *)
Lemma doExpand_returns fuel : forall s results,
  String.length s < fuel ->
  exists r, doExpand fuel s results = Some r.
Proof.
  induction fuel as [|fuel IH]; intros s results Hlen; [lia|].
  cbn [doExpand].
  destruct (doExpand_scan s 0 0%Z None) as [|[ps|]] eqn:Hscan.
  - apply for_each_returns. intros alt Hin r. apply IH.
    pose proof (split_loop_strict s s 0 0%Z None 0 [] Hscan eq_refl (le_n _)
                  (Forall_nil _)) as Hall.
    rewrite Forall_forall in Hall. specialize (Hall alt Hin).
    unfold shorter_than in Hall.
    destruct s; [discriminate|]. cbn [String.length] in *. lia.
  - destruct (doExpand_close (js_substring_from s ps) ps 0%Z) as [pe|] eqn:Hclose;
      [|eauto].
    apply for_each_returns. intros alt Hin r. apply IH.
    apply doExpand_close_bound in Hclose.
    pose proof (js_substring_from_length s ps) as Htail.
    pose proof (js_substring_length s 0 ps) as Hpre.
    pose proof (js_substring_from_length s (pe + 1)) as Hsuf.
    pose proof (js_substring_length s (ps + 1) pe) as Hinner.
    set (inner := js_substring s (ps + 1) pe) in *.
    assert (Halt : String.length alt <= String.length inner).
    { destruct (startsWith inner "?:").
      - pose proof (splitTopLevel_bound (js_substring_from inner 2)) as Hall.
        rewrite Forall_forall in Hall. specialize (Hall alt Hin).
        unfold shorter_than in Hall.
        pose proof (js_substring_from_length inner 2). lia.
      - pose proof (splitTopLevel_bound inner) as Hall.
        rewrite Forall_forall in Hall. exact (Hall alt Hin). }
    rewrite !length_append. lia.
  - eauto.
Qed.

(** [expandTrie] is the array [doExpand] leaves behind. *)
Lemma expandTrie_returns s :
  doExpand (S (String.length s)) s [] = Some (expandTrie s).
Proof.
  unfold expandTrie.
  destruct (doExpand_returns (S (String.length s)) s []) as [r Hr]; [lia|].
  rewrite Hr. reflexivity.
Qed.

(** *** The namespace prefix *)

(** Written with a plain backtick, the prefix is stripped whole. *)
Lemma plain_prefix_is_stripped pattern :
  strip_System_prefix ("System`" ++ pattern) = pattern.
Proof.
  unfold strip_System_prefix, startsWith, js_substring_from. cbn.
  replace (String.length pattern - 0) with (String.length pattern) by lia.
  apply substring_whole.
Qed.

(** So the names of an expression with the plain prefix are those of the
    expression without it, as long as that one has no prefix of its own
    the first step would strip. *)
Lemma plain_prefix_same_names pattern :
  strip_System_prefix pattern = pattern ->
  extractSymbolNames ("System`" ++ pattern) = extractSymbolNames pattern.
Proof.
  intros H. unfold extractSymbolNames.
  rewrite plain_prefix_is_stripped, H. reflexivity.
Qed.

(** C5, at the expression [System\`(?:A(?:bs|dd))], the prefix with the
    backtick escaped.  The first step removes [System] and the backslash
    and leaves the backtick; the expansion then yields names that start
    with a backtick, which the filter drops, so no name is recovered,
    where the expression without the prefix, and the one with the plain
    prefix, give [Abs] and [Add]. *)
Theorem escaped_prefix_keeps_backtick :
  strip_System_prefix "System\`(?:A(?:bs|dd))" = "`(?:A(?:bs|dd))" /\
  expandTrie "`(?:A(?:bs|dd))" = ["`Abs"; "`Add"] /\
  extractSymbolNames "System\`(?:A(?:bs|dd))" = [] /\
  extractSymbolNames "(?:A(?:bs|dd))" = ["Abs"; "Add"] /\
  extractSymbolNames "System`(?:A(?:bs|dd))" = ["Abs"; "Add"].
Proof. repeat split; vm_compute; reflexivity. Qed.

(** *** Match blocks *)

(** **** The set of the names *)

Lemma set_loop_spec : forall names seen,
  NoDup seen ->
  NoDup (set_loop names seen) /\
  (forall x, In x (set_loop names seen) <-> In x seen \/ In x names).
Proof.
  induction names as [|n names IH]; intros seen Hnd; cbn [set_loop].
  - split; [assumption|]. intros x; cbn; tauto.
  - destruct (existsb (String.eqb n) seen) eqn:E.
    + destruct (IH seen Hnd) as [H1 H2]. split; [assumption|].
      intros x. rewrite H2. cbn.
      apply existsb_exists in E as (y & Hy & Hny).
      apply String.eqb_eq in Hny. subst y.
      intuition (subst; auto).
    + assert (Hnot : ~ In n seen).
      { intros Hin.
        assert (existsb (String.eqb n) seen = true) as Ht
          by (apply existsb_exists; exists n; split;
              [assumption | apply String.eqb_refl]).
        congruence. }
      assert (Hnd' : NoDup (seen ++ [n])).
      { apply NoDup_app; repeat split; auto.
        - constructor; [intros []|constructor].
        - intros x Hx [Hn|[]]. subst. contradiction. }
      destruct (IH (seen ++ [n])%list Hnd') as [H1 H2]. split; [assumption|].
      intros x. rewrite H2, in_app_iff. cbn. tauto.
Qed.

Lemma array_of_set_NoDup names : NoDup (array_of_set names).
Proof. apply set_loop_spec. constructor. Qed.

Lemma array_of_set_In names x : In x (array_of_set names) <-> In x names.
Proof.
  unfold array_of_set.
  destruct (set_loop_spec names [] (NoDup_nil _)) as [_ H].
  rewrite H. cbn. tauto.
Qed.

(** **** The order of the code units *)

Lemma leb_cases a b :
  String.leb a b = true <-> a = b \/ String_as_OT.lt a b.
Proof.
  unfold String.leb.
  destruct (String.compare a b) eqn:E; split; intros H; try reflexivity.
  - left. now apply String_as_OT.cmp_eq.
  - right. now apply String_as_OT.cmp_lt.
  - discriminate.
  - destruct H as [H|H].
    + apply String_as_OT.cmp_eq in H. unfold String_as_OT.cmp in H. congruence.
    + apply String_as_OT.cmp_lt in H. unfold String_as_OT.cmp in H. congruence.
Qed.

Lemma leb_trans a b c :
  String.leb a b = true -> String.leb b c = true -> String.leb a c = true.
Proof.
  rewrite !leb_cases. intros [->|Hab] [->|Hbc]; auto.
  right. eapply String_as_OT.lt_trans; eassumption.
Qed.

Lemma js_sort_sorted l :
  StronglySorted (fun a b => String.leb a b = true) (js_sort l).
Proof.
  apply (CodeUnitSort.StronglySorted_sort l).
  intros a b c. apply leb_trans.
Qed.

Lemma js_sort_perm l : Permutation l (js_sort l).
Proof. apply CodeUnitSort.Permuted_sort. Qed.

(** A sorted array without duplicates is strictly increasing. *)
Lemma sorted_NoDup_strict l :
  StronglySorted (fun a b => String.leb a b = true) l ->
  NoDup l ->
  StronglySorted String_as_OT.lt l.
Proof.
  induction 1 as [|a l Hs IH Hall]; intros Hnd; constructor.
  - apply IH. now inversion Hnd.
  - inversion Hnd as [|? ? Hnotin _]; subst.
    rewrite Forall_forall in *. intros x Hx.
    destruct (proj1 (leb_cases a x) (Hall x Hx)) as [->|Hlt];
      [contradiction | assumption].
Qed.

Lemma sorted_names_strict names :
  StronglySorted String_as_OT.lt (js_sort (array_of_set names)).
Proof.
  apply sorted_NoDup_strict; [apply js_sort_sorted|].
  eapply Permutation_NoDup; [apply js_sort_perm | apply array_of_set_NoDup].
Qed.

Lemma sorted_names_In names x :
  In x (js_sort (array_of_set names)) <-> In x names.
Proof.
  rewrite <- (array_of_set_In names x). split; intros H.
  - eapply Permutation_in; [apply Permutation_sym, js_sort_perm | exact H].
  - eapply Permutation_in; [apply js_sort_perm | exact H].
Qed.

(** **** The batches *)

Lemma weight_app a b : weight (a ++ b) = weight a + weight b.
Proof.
  unfold weight. rewrite map_app, list_sum_app. reflexivity.
Qed.

(** The alternation of a block is one character shorter than the count
    the loop keeps for it. *)
Lemma alternation_length b :
  b <> [] -> String.length (alternation b) + 1 = weight b.
Proof.
  unfold alternation, join, weight.
  induction b as [|x [|y r] IH]; intros Hne; [contradiction| |].
  - cbn. lia.
  - cbn [String.concat map list_sum fold_right] in *.
    rewrite !length_append. cbn [String.length].
    specialize (IH ltac:(discriminate)). lia.
Qed.

Lemma batch_loop_spec maxRegexLen : forall sorted lines batch currentLen,
  currentLen = weight batch ->
  batch = [] \/ block_ok maxRegexLen batch ->
  Forall (block_ok maxRegexLen) lines ->
  Forall (block_ok maxRegexLen)
         (batch_loop maxRegexLen sorted lines batch currentLen) /\
  concat (batch_loop maxRegexLen sorted lines batch currentLen) =
    (concat lines ++ batch ++ sorted)%list.
Proof.
  induction sorted as [|name sorted IH]; intros lines batch currentLen Hlen Hbatch Hlines;
    cbn [batch_loop].
  - destruct batch as [|b0 batch].
    + cbn. split; [assumption|]. now rewrite app_nil_r.
    + cbn [List.length Nat.ltb Nat.leb].
      destruct Hbatch as [Hb|Hb]; [discriminate|].
      split.
      * apply Forall_app; split; [assumption|]. constructor; [assumption|constructor].
      * rewrite concat_app. cbn. now rewrite !app_nil_r.
  - destruct ((maxRegexLen <? currentLen + String.length name + 1)
              && (0 <? List.length batch)) eqn:Hflush.
    + apply andb_true_iff in Hflush as [_ Hne].
      apply Nat.ltb_lt in Hne.
      destruct Hbatch as [->|Hb]; [cbn in Hne; lia|].
      destruct (IH (lines ++ [batch])%list [name] (String.length name + 1)) as [H1 H2].
      * unfold weight. cbn. lia.
      * right. split; [discriminate|]. right. eauto.
      * apply Forall_app; split; [assumption|]. constructor; [assumption|constructor].
      * split; [assumption|]. rewrite H2, concat_app. cbn.
        rewrite app_nil_r, <- app_assoc. reflexivity.
    + destruct (IH lines (batch ++ [name])%list
                   (currentLen + String.length name + 1)) as [H1 H2].
      * rewrite weight_app, Hlen. unfold weight. cbn. lia.
      * right. split; [destruct batch; discriminate|].
        apply andb_false_iff in Hflush as [Hfit|Hempty].
        -- left. apply Nat.ltb_ge in Hfit.
           rewrite weight_app. unfold weight at 2. cbn. lia.
        -- right. apply Nat.ltb_ge in Hempty.
           destruct batch; [cbn; eauto | cbn in Hempty; lia].
      * assumption.
      * split; [assumption|]. rewrite H2, <- app_assoc. reflexivity.
Qed.

Lemma matchBatches_spec names maxRegexLen :
  Forall (block_ok maxRegexLen) (matchBatches names maxRegexLen) /\
  concat (matchBatches names maxRegexLen) = js_sort (array_of_set names).
Proof.
  unfold matchBatches.
  destruct (batch_loop_spec maxRegexLen (js_sort (array_of_set names)) [] [] 0)
    as [H1 H2]; auto.
Qed.

Lemma StronglySorted_app_parts {A} (R : A -> A -> Prop) l1 l2 :
  StronglySorted R (l1 ++ l2) -> StronglySorted R l1 /\ StronglySorted R l2.
Proof.
  induction l1 as [|a l1 IH]; cbn; intros H.
  - split; [constructor | assumption].
  - inversion H as [|? ? Hs Hall]; subst.
    destruct (IH Hs) as [H1 H2]. split; [|assumption].
    constructor; [assumption|].
    rewrite Forall_app in Hall. tauto.
Qed.

Lemma StronglySorted_concat_part {A} (R : A -> A -> Prop) ls b :
  StronglySorted R (concat ls) -> In b ls -> StronglySorted R b.
Proof.
  induction ls as [|l ls IH]; cbn; intros Hs Hin; [contradiction|].
  apply StronglySorted_app_parts in Hs.
  destruct Hin as [->|Hin]; tauto.
Qed.

Lemma strictly_sorted_NoDup l :
  StronglySorted String_as_OT.lt l -> NoDup l.
Proof.
  induction 1 as [|a l Hs IH Hall]; constructor; [|assumption].
  intros Hin. rewrite Forall_forall in Hall.
  exact (String_as_OT.lt_not_eq _ _ (Hall a Hin) eq_refl).
Qed.

(** C6, with the bound as the code keeps it.  For every capture name and
    every list of names, the text [generateMatchBlocks] returns is made
    of the blocks of [matchBatches]; in each block the names are in
    strictly increasing lexicographic order, hence distinct; the
    alternation of a block is at most 4000 characters long, unless the
    block holds one single name that is itself longer than that; and the
    blocks, one after the other, are the sorted array of the distinct
    names: no block shares a name with another, and the names of the
    blocks are those of the input. *)
Theorem match_blocks_sorted_bounded_covering capture names :
  generateMatchBlocks capture names default_nodeType default_maxRegexLen =
    join (nl ++ nl)
         (map (fun b => formatMatchBlock capture b default_nodeType)
              (matchBatches names default_maxRegexLen)) /\
  (forall b, In b (matchBatches names default_maxRegexLen) ->
     StronglySorted String_as_OT.lt b /\ NoDup b) /\
  (forall b, In b (matchBatches names default_maxRegexLen) ->
     String.length (alternation b) <= 4000 \/
     exists n, b = [n] /\ 4000 < String.length n) /\
  NoDup (concat (matchBatches names default_maxRegexLen)) /\
  (forall x, In x (concat (matchBatches names default_maxRegexLen)) <-> In x names).
Proof.
  destruct (matchBatches_spec names default_maxRegexLen) as [Hok Hcat].
  pose proof (sorted_names_strict names) as Hsorted.
  rewrite <- Hcat in Hsorted.
  split; [reflexivity|]. split; [|split; [|split]].
  - intros b Hb.
    assert (StronglySorted String_as_OT.lt b)
      by (eapply StronglySorted_concat_part; eassumption).
    split; [assumption | now apply strictly_sorted_NoDup].
  - intros b Hb. rewrite Forall_forall in Hok.
    destruct (Hok b Hb) as [Hne [Hw|[n ->]]].
    + left. pose proof (alternation_length b Hne).
      unfold default_maxRegexLen in Hw. lia.
    + destruct (Nat.le_gt_cases (String.length n) 4000) as [Hle|Hgt].
      * left. cbn. exact Hle.
      * right. eauto.
  - now apply strictly_sorted_NoDup.
  - intros x. rewrite Hcat. apply sorted_names_In.
Qed.

(** C6 as stated fails for a name of 4001 characters: it is a block of
    its own, and the alternation of that block is the name. *)
Lemma oversize_name_exceeds_bound :
  ~ (forall b, In b (matchBatches [long_name] default_maxRegexLen) ->
       String.length (alternation b) <= 4000).
Proof.
  intros H.
  assert (Hin : In [long_name] (matchBatches [long_name] default_maxRegexLen))
    by (vm_compute; left; reflexivity).
  specialize (H _ Hin).
  assert (Hlen : String.length (alternation [long_name]) = 4001)
    by (vm_compute; reflexivity).
  rewrite Hlen in H. lia.
Qed.

(** *** Runs of the generator *)

Section Runs.

Variable ROOT : string.
Variable parse_grammar : string -> option TmGrammar.
Variable engine_sort : list string -> list string.
Variable writable : string -> bool.

(** What a run that reaches its end has read and written. *)
Lemma run_outputs fs fs' :
  main ROOT parse_grammar engine_sort writable fs = Finished fs' ->
  exists text grammar,
    fs (TM_GRAMMAR_PATH ROOT) = Some text /\
    parse_grammar text = Some grammar /\
    writable (HIGHLIGHTS_OUT ROOT) = true /\
    writable (BRACKETS_OUT ROOT) = true /\
    fs' (BRACKETS_OUT ROOT) = Some brackets_document /\
    (HIGHLIGHTS_OUT ROOT <> BRACKETS_OUT ROOT ->
     fs' (HIGHLIGHTS_OUT ROOT) =
       Some (highlights_document_by engine_sort grammar)) /\
    (forall p, p <> HIGHLIGHTS_OUT ROOT -> p <> BRACKETS_OUT ROOT -> fs' p = fs p).
Proof.
  unfold main, readFileSync, writeFileSync.
  destruct (fs (TM_GRAMMAR_PATH ROOT)) as [text|] eqn:Ht; [|discriminate].
  destruct (parse_grammar text) as [grammar|] eqn:Hp; [|discriminate].
  destruct (writable (HIGHLIGHTS_OUT ROOT)) eqn:Hwh; [|discriminate].
  destruct (writable (BRACKETS_OUT ROOT)) eqn:Hwb; [|discriminate].
  intros H; inversion H; subst; clear H.
  exists text, grammar.
  repeat split; auto.
  - now rewrite String.eqb_refl.
  - intros Hne. apply String.eqb_neq in Hne. now rewrite Hne, String.eqb_refl.
  - intros p H1 H2.
    apply String.eqb_neq in H1, H2. now rewrite H1, H2.
Qed.

Lemma append_same_prefix a x y :
  String.eqb (a ++ x) (a ++ y) = String.eqb x y.
Proof.
  induction a as [|c a IH]; cbn; [reflexivity|].
  now rewrite Ascii.eqb_refl.
Qed.

Lemma outputs_are_not_the_grammar :
  TM_GRAMMAR_PATH ROOT <> HIGHLIGHTS_OUT ROOT /\
  TM_GRAMMAR_PATH ROOT <> BRACKETS_OUT ROOT /\
  HIGHLIGHTS_OUT ROOT <> BRACKETS_OUT ROOT.
Proof.
  unfold TM_GRAMMAR_PATH, HIGHLIGHTS_OUT, BRACKETS_OUT, path_join.
  repeat split; apply String.eqb_neq; rewrite append_same_prefix; reflexivity.
Qed.

(** X18.  Running the generator again on what one of its runs left
    behind does not throw and changes no file: the generator never
    reads what it writes. *)
Lemma rerun_changes_nothing fs fs' :
  main ROOT parse_grammar engine_sort writable fs = Finished fs' ->
  exists fs'',
    main ROOT parse_grammar engine_sort writable fs' = Finished fs'' /\
    forall p, fs'' p = fs' p.
Proof.
  intros Hrun.
  destruct outputs_are_not_the_grammar as (Hgh & Hgb & Hhb).
  destruct (run_outputs _ _ Hrun)
    as (text & grammar & Ht & Hp & Hwh & Hwb & Hb & Hh & Hrest).
  specialize (Hh Hhb).
  assert (Hsame : fs' (TM_GRAMMAR_PATH ROOT) = Some text) by (rewrite Hrest; auto).
  unfold main, readFileSync, writeFileSync.
  rewrite Hsame, Hp, Hwh, Hwb.
  eexists. split; [reflexivity|].
  intros p. cbn beta.
  destruct (String.eqb_spec p (BRACKETS_OUT ROOT)) as [->|H2]; [now rewrite Hb|].
  destruct (String.eqb_spec p (HIGHLIGHTS_OUT ROOT)) as [->|H1]; [now rewrite Hh|].
  reflexivity.
Qed.

End Runs.

(** *** The pattern of a block *)

(** The reading of the patterns on a block of two names: the block holds
    of these names and of nothing that only contains, starts or ends
    one of them. *)
Lemma block_regex_example :
  block_regex ["Abs"; "Add"] = "^(Abs|Add)$" /\
  Regex.is_match (block_regex ["Abs"; "Add"]) "Abs" = Some true /\
  Regex.is_match (block_regex ["Abs"; "Add"]) "Add" = Some true /\
  Regex.is_match (block_regex ["Abs"; "Add"]) "Ab" = Some false /\
  Regex.is_match (block_regex ["Abs"; "Add"]) "Abss" = Some false /\
  Regex.is_match (block_regex ["Abs"; "Add"]) "xAdd" = Some false /\
  Regex.is_match "Ab" "xAbs" = Some true.
Proof. repeat split; vm_compute; reflexivity. Qed.

(** The whole pattern is four characters longer than the alternation. *)
Lemma block_regex_length names :
  String.length (block_regex names) = String.length (alternation names) + 4.
Proof.
  unfold block_regex. rewrite !length_append. cbn. lia.
Qed.

(** C10, at the block of the single name "A$".  The name has the shape
    of a symbol name and comes out of [extractSymbolNames] unchanged, so
    a grammar entry with this match expression gives a generated section
    with the block of this name; [formatMatchBlock] writes the name into
    the pattern as it is, where its last character is the anchor for the
    end of the text.  The block therefore holds of the node whose text
    is "A", which is not the listed name but a prefix of it, and does
    not hold of the node whose text is the listed name. *)
Theorem dollar_name_matches_its_prefix :
  is_symbol_name "A$" = true /\
  extractSymbolNames "A$" = ["A$"] /\
  generated_sections
    (collect_symbols
       {| symbols_patterns :=
            Some [ {| tm_match := Some "A$";
                      tm_name := Some "constant.language.wolfram" |} ] |}) =
    [ "; constant.language (from vscode-wolfram)" ++ nl ++
      formatMatchBlock "constant.builtin" ["A$"] "symbol" ] /\
  formatMatchBlock "constant.builtin" ["A$"] "symbol" =
    "((symbol) @constant.builtin" ++ nl ++
    "  (#match? @constant.builtin " ++ dq ++ "^(A$)$" ++ dq ++ "))" /\
  Regex.is_match (block_regex ["A$"]) "A" = Some true /\
  Regex.is_match (block_regex ["A$"]) "A$" = Some false.
Proof. repeat split; vm_compute; reflexivity. Qed.

End GeneratorFacts.

(** *** Blocks whose names hold letters and digits only *)

Module RegexFacts.
Import Generator Regex GeneratorFacts.
Local Open Scope string_scope.
Local Open Scope nat_scope.

(** A letter or digit is no operator of the pattern syntax. *)
Lemma alnum_plain c :
  alnum c = true ->
  Ascii.eqb c "|" = false /\ Ascii.eqb c ")" = false /\
  Ascii.eqb c "(" = false /\ Ascii.eqb c "^" = false /\
  Ascii.eqb c "$" = false /\ unsupported c = false.
Proof.
  destruct c as [[] [] [] [] [] [] [] []]; intros H;
    first [ discriminate H | repeat split; reflexivity ].
Qed.

Lemma parse_literal name : forall tail fuel,
  all_alnum name = true ->
  stops tail ->
  String.length name < fuel ->
  parse fuel false (name ++ tail) = Some (literal name, tail).
Proof.
  induction name as [|c name IH]; intros tail fuel Hname Htail Hfuel;
    (destruct fuel as [|fuel]; [lia|]).
  - cbn [append parse literal].
    destruct tail as [|c t]; [reflexivity|].
    cbn in Htail. rewrite Htail. reflexivity.
  - cbn [all_alnum] in Hname. apply andb_true_iff in Hname as [Hc Hname].
    destruct (alnum_plain c Hc) as (H1 & H2 & H3 & H4 & H5 & H6).
    cbn [append parse literal]. rewrite H1, H2, H3, H4, H5, H6. cbn [orb].
    rewrite IH by (auto; cbn in Hfuel; lia). reflexivity.
Qed.

Lemma parse_alternatives names : forall tail fuel,
  names <> [] ->
  Forall (fun n => all_alnum n = true) names ->
  String.length (alternation names) + 1 < fuel ->
  parse fuel true (alternation names ++ ")" ++ tail) =
  Some (alternatives names, ")" ++ tail).
Proof.
  unfold alternation, join.
  induction names as [|n [|m names] IH]; intros tail fuel Hne Hall Hfuel;
    [contradiction| |]; (destruct fuel as [|fuel]; [lia|]).
  - cbn [String.concat alternatives] in *.
    inversion Hall as [|? ? Hn _]; subst.
    cbn [parse].
    rewrite parse_literal by (auto; lia || exact eq_refl).
    reflexivity.
  - inversion Hall as [|? ? Hn Hrest]; subst.
    change (String.concat "|" (n :: m :: names))
      with (n ++ "|" ++ String.concat "|" (m :: names)) in *.
    rewrite !length_append in Hfuel. cbn [String.length] in Hfuel.
    change (alternatives (n :: m :: names))
      with (Alt (literal n) (alternatives (m :: names))).
    rewrite !append_assoc.
    cbn [parse].
    rewrite parse_literal by (auto; lia || exact eq_refl).
    cbn [append]. change (Ascii.eqb "|" "|") with true. cbv iota.
    change (String ")" tail) with (")" ++ tail).
    rewrite IH by (auto; try discriminate; lia). reflexivity.
Qed.

(** The pattern of a block of such names is read as [block_ast]. *)
Lemma parse_block_regex names :
  names <> [] ->
  Forall (fun n => all_alnum n = true) names ->
  parse_regex (block_regex names) = Some (block_ast names).
Proof.
  intros Hne Hall.
  assert (Hgen : forall fuel,
            String.length (alternation names) + 2 < fuel ->
            parse (S (S (S fuel))) true (block_regex names) =
            Some (block_ast names, EmptyString)).
  { intros fuel Hfuel. unfold block_regex.
    change ("^(" ++ alternation names ++ ")$")
      with (String "^" (String "(" (alternation names ++ ")" ++ "$"))).
    cbn [parse Ascii.eqb Bool.eqb orb andb unsupported existsb
         list_ascii_of_string].
    rewrite parse_alternatives by (auto; lia).
    destruct fuel as [|[|fuel]]; [lia | lia |].
    reflexivity. }
  unfold parse_regex.
  replace (2 * String.length (block_regex names) + 2)
    with (S (S (S (2 * String.length (block_regex names) - 1))))
    by (rewrite block_regex_length; lia).
  rewrite Hgen by (rewrite block_regex_length; lia).
  reflexivity.
Qed.

(** Matching a literal name consumes exactly the name. *)
Lemma accepts_literal name : forall b text k,
  (forall b1 b2 t, k b1 t = k b2 t) ->
  accepts (literal name) b text k =
  match drop_prefix name text with
  | Some rest => k b rest
  | None => false
  end.
Proof.
  induction name as [|c name IH]; intros b text k Hk; cbn; [reflexivity|].
  destruct text as [|c' text]; [reflexivity|].
  destruct (Ascii.eqb c c'); [|reflexivity].
  cbn. rewrite IH by assumption.
  destruct (drop_prefix name text); [apply Hk | reflexivity].
Qed.

Lemma accepts_alternatives names : forall b text k,
  names <> [] ->
  (forall b1 b2 t, k b1 t = k b2 t) ->
  accepts (alternatives names) b text k =
  existsb (fun n => match drop_prefix n text with
                    | Some rest => k b rest
                    | None => false
                    end) names.
Proof.
  induction names as [|n [|m names] IH]; intros b text k Hne Hk; [contradiction| |].
  - cbn [alternatives existsb]. rewrite accepts_literal by assumption.
    now rewrite orb_false_r.
  - change (alternatives (n :: m :: names))
      with (Alt (literal n) (alternatives (m :: names))).
    cbn [accepts]. rewrite accepts_literal by assumption.
    rewrite IH by (auto; discriminate). reflexivity.
Qed.

Lemma drop_prefix_all n : forall text,
  match drop_prefix n text with
  | Some EmptyString => true
  | _ => false
  end = String.eqb text n.
Proof.
  induction n as [|c n IH]; intros [|c' text]; cbn; try reflexivity.
  rewrite (Ascii.eqb_sym c' c).
  destruct (Ascii.eqb c c'); [apply IH | reflexivity].
Qed.

Lemma existsb_same {A} (f g : A -> bool) l :
  (forall x, f x = g x) -> existsb f l = existsb g l.
Proof.
  intros H. induction l as [|x l IH]; cbn; [reflexivity | now rewrite H, IH].
Qed.

(** A pattern that starts with the start anchor matches nowhere but at
    the start. *)
Lemma search_anchored r : forall text,
  search (Seq StartOfText r) false text = false.
Proof.
  induction text as [|c text IH]; cbn; [reflexivity | exact IH].
Qed.

(** X19.  The pattern [formatMatchBlock] writes for names that hold
    letters and digits only, read as a regular expression, holds of a
    node exactly when the text of the node is one of the names. *)
Lemma plain_block_holds_of_its_names names text :
  names <> [] ->
  Forall (fun n => all_alnum n = true) names ->
  is_match (block_regex names) text = Some (existsb (String.eqb text) names).
Proof.
  intros Hne Hall. unfold is_match.
  rewrite parse_block_regex by assumption.
  cbn [option_map]. f_equal.
  assert (Hacc : accepts (block_ast names) true text (fun _ _ => true) =
                 existsb (String.eqb text) names).
  { unfold block_ast. cbn [accepts andb].
    rewrite accepts_alternatives; [|assumption|].
    - apply existsb_same. intros n.
      rewrite <- drop_prefix_all.
      destruct (drop_prefix n text) as [[|c rest]|]; reflexivity.
    - intros b1 b2 [|c t]; reflexivity. }
  destruct text as [|c text]; cbn [search].
  - rewrite Hacc. now rewrite orb_false_r.
  - rewrite Hacc. unfold block_ast. rewrite search_anchored.
    now rewrite orb_false_r.
Qed.

Lemma plain_block_holds_of_its_names_witness :
  is_match (block_regex ["Abs"; "Add"]) "Add" =
  Some (existsb (String.eqb "Add") ["Abs"; "Add"]).
Proof.
  apply (plain_block_holds_of_its_names ["Abs"; "Add"] "Add").
  - discriminate.
  - repeat constructor.
Defined.

End RegexFacts.

(* ================================================================== *)
(** ** More on the scanner                                             *)
(* ================================================================== *)

Module ScannerCoverage.
Import Scanner ScannerFacts.

(** An iteration that returns has found the closing delimiter under the
    cursor at depth 1, has consumed it, and reports a comment that ends
    at the cursor. *)
Lemma body_return depth lexer result lexer' :
  eof lexer = false ->
  scan_comment_body depth lexer = Return result lexer' ->
  result = true /\
  rest lexer = STAR :: RPAREN :: rest lexer' /\
  position lexer' = S (S (position lexer)) /\
  token_start lexer' = token_start lexer /\
  marked_end lexer' = Some (position lexer') /\
  result_symbol lexer' = Some COMMENT.
Proof.
  unfold scan_comment_body, lookahead, eof, advance.
  destruct lexer as [[|c r] p ts me rs]; cbn; [discriminate|].
  intros _.
  destruct (c =? STAR)%Z eqn:Hc.
  - apply Z.eqb_eq in Hc. subst c.
    destruct r as [|c' r']; cbn; [discriminate|].
    destruct (c' =? RPAREN)%Z eqn:Hc'; [|discriminate].
    apply Z.eqb_eq in Hc'. subst c'.
    destruct (depth - 1 =? 0)%Z; [|discriminate].
    intros H; inversion H; subst; cbn. repeat split.
  - destruct (c =? LPAREN)%Z.
    + destruct r as [|c' r']; cbn; [discriminate|].
      destruct (c' =? STAR)%Z; discriminate.
    + discriminate.
Qed.

Lemma body_continue_rest depth lexer depth' lexer' :
  eof lexer = false ->
  scan_comment_body depth lexer = Continue depth' lexer' ->
  exists c, rest lexer = c :: rest lexer'.
Proof.
  unfold scan_comment_body, lookahead, eof, advance.
  destruct lexer as [[|c r] p ts me rs]; cbn; [discriminate|].
  intros _.
  destruct (c =? STAR)%Z.
  - destruct r as [|c' r']; cbn.
    + intros H; inversion H; subst; cbn; eauto.
    + destruct (c' =? RPAREN)%Z.
      * destruct (depth - 1 =? 0)%Z; [discriminate|].
        intros H; inversion H; subst; cbn; eauto.
      * intros H; inversion H; subst; cbn; eauto.
  - destruct (c =? LPAREN)%Z.
    + destruct r as [|c' r']; cbn.
      * intros H; inversion H; subst; cbn; eauto.
      * destruct (c' =? STAR)%Z; intros H; inversion H; subst; cbn; eauto.
    + intros H; inversion H; subst; cbn; eauto.
Qed.

(** When the loop returns [true], what it has consumed ends with the
    closing delimiter, and the comment is reported up to the cursor. *)
Lemma loop_true fuel : forall depth lexer lexer',
  scan_comment_loop fuel depth lexer = Some (true, lexer') ->
  exists body,
    rest lexer = body ++ STAR :: RPAREN :: rest lexer' /\
    position lexer' = (position lexer + length body + 2)%nat /\
    token_start lexer' = token_start lexer /\
    marked_end lexer' = Some (position lexer') /\
    result_symbol lexer' = Some COMMENT.
Proof.
  induction fuel as [|fuel IH]; intros depth lexer lexer'; cbn [scan_comment_loop];
    [discriminate|].
  destruct (eof lexer) eqn:Heof; [discriminate|].
  destruct (scan_comment_body depth lexer) as [b l1|d1 l1] eqn:Hbody.
  - intros H; inversion H; subst.
    destruct (body_return _ _ _ _ Heof Hbody) as (_ & Hr & Hp & Ht & Hm & Hs).
    exists []. cbn. repeat split; auto; lia.
  - intros H. apply IH in H as (body & Hr & Hp & Ht & Hm & Hs).
    destruct (body_continue_rest _ _ _ _ Heof Hbody) as [c Hc].
    destruct (body_continue _ _ _ _ Heof Hbody) as (_ & Hp1 & Ht1 & _).
    exists (c :: body). cbn [app length]. rewrite Hc, Hr.
    repeat split; auto; try congruence; lia.
Qed.

(** When the loop returns [false], it has read the input to its end and
    has left the token slots alone. *)
Lemma loop_false fuel : forall depth lexer lexer',
  scan_comment_loop fuel depth lexer = Some (false, lexer') ->
  rest lexer' = [] /\
  position lexer' = (position lexer + length (rest lexer))%nat /\
  token_start lexer' = token_start lexer /\
  marked_end lexer' = marked_end lexer /\
  result_symbol lexer' = result_symbol lexer.
Proof.
  induction fuel as [|fuel IH]; intros depth lexer lexer'; cbn [scan_comment_loop];
    [discriminate|].
  destruct (eof lexer) eqn:Heof.
  - intros H; inversion H; subst.
    unfold eof in Heof. destruct (rest lexer'); [|discriminate].
    cbn. repeat split; auto.
  - destruct (scan_comment_body depth lexer) as [b l1|d1 l1] eqn:Hbody.
    + intros H; inversion H; subst.
      destruct (body_return _ _ _ _ Heof Hbody) as (Hb & _). discriminate.
    + intros H. apply IH in H as (Hr & Hp & Ht & Hm & Hs).
      destruct (body_continue _ _ _ _ Heof Hbody) as (Hl & Hp1 & Ht1 & Hm1 & Hs1 & _).
      repeat split; auto; try congruence; lia.
Qed.

Section Entry.

Variable iswspace : Z -> bool.

(** What the white-space loop has done when it stops. *)
Lemma skip_whitespace_done fuel : forall lexer lexer',
  skip_whitespace iswspace fuel lexer = Some lexer' ->
  exists ws,
    rest lexer = ws ++ rest lexer' /\
    forallb iswspace ws = true /\
    iswspace (peek (rest lexer')) = false /\
    position lexer' = (position lexer + length ws)%nat /\
    token_start lexer' =
      match ws with [] => token_start lexer | _ => position lexer' end /\
    marked_end lexer' = marked_end lexer /\
    result_symbol lexer' = result_symbol lexer.
Proof.
  induction fuel as [|fuel IH]; intros lexer lexer'; cbn [skip_whitespace];
    [discriminate|].
  destruct (iswspace (lookahead lexer)) eqn:Hw.
  - intros H. apply IH in H as (ws & Hr & Hall & Hstop & Hp & Ht & Hm & Hs).
    destruct lexer as [[|c r] p ts me rs].
    + exists ws. cbn in *. repeat split; auto.
    + unfold advance in *. cbn in *. exists (c :: ws).
      cbn [app forallb length]. rewrite Hr, Hw, Hall.
      repeat split; auto; try lia.
      destruct ws; cbn in *; lia.
  - intros H; inversion H; subst. exists []. cbn.
    repeat split; auto; lia.
Qed.

(** X1.  Whatever the scan reports as a token is a comment: its kind is
    [COMMENT], it starts right after the leading white space with the
    opening delimiter, it ends with a closing delimiter, and its end is
    the cursor: the scan has returned [true] with the cursor and the
    marked end right behind that closing delimiter, and what follows it
    in the input is still to be read. *)
Theorem token_is_a_delimited_comment s kind start finish :
  tokenize iswspace s = Some (Token kind start finish) ->
  kind = COMMENT /\
  exists ws body lexer',
    tree_sitter_wolfram_external_scanner_scan iswspace (lexer_on s) =
      Some (true, lexer') /\
    s = ws ++ LPAREN :: STAR :: body ++ STAR :: RPAREN :: rest lexer' /\
    forallb iswspace ws = true /\
    start = length ws /\
    finish = (length ws + length body + 4)%nat /\
    position lexer' = finish /\
    marked_end lexer' = Some finish /\
    token_start lexer' = start /\
    result_symbol lexer' = Some COMMENT.
Proof.
  unfold tokenize.
  destruct (tree_sitter_wolfram_external_scanner_scan iswspace (lexer_on s))
    as [[ok l2]|] eqn:Hscan; cbn [option_map]; [|discriminate].
  intros Htok.
  assert (Hok : ok = true) by (destruct ok; [reflexivity | discriminate Htok]).
  subst ok. revert Hscan.
  unfold tree_sitter_wolfram_external_scanner_scan.
  destruct (skip_whitespace iswspace (S (length (rest (lexer_on s)))) (lexer_on s))
    as [l1|] eqn:Hskip; [|discriminate].
  apply skip_whitespace_done in Hskip as (ws & Hr & Hall & _ & Hp & Ht & Hm & Hs).
  cbn [rest position token_start marked_end result_symbol lexer_on] in *.
  assert (Hts : token_start l1 = length ws) by (destruct ws; cbn in *; lia).
  unfold lookahead, advance.
  destruct l1 as [[|c [|c' r]] p ts me rs];
    cbn [rest position token_start marked_end result_symbol peek] in *;
    try (destruct (_ =? LPAREN)%Z; discriminate).
  destruct (c =? LPAREN)%Z eqn:Hc; [|discriminate].
  destruct (c' =? STAR)%Z eqn:Hc'; [|discriminate].
  apply Z.eqb_eq in Hc, Hc'. subst c c'.
  unfold scan_comment. cbn [rest]. intros Hloop.
  apply loop_true in Hloop as (body & Hr2 & Hp2 & Ht2 & Hm2 & Hs2).
  cbn [rest position token_start marked_end result_symbol] in *.
  unfold token_of in Htok. rewrite Hs2, Hm2 in Htok.
  inversion Htok; subst.
  split; [reflexivity|].
  exists ws, body, l2. repeat split; auto; try congruence; lia.
Qed.

(** X2.  After an opening delimiter, a scan that fails has read the
    whole input: the cursor stands at the end, the token would have
    started after the white space, and no kind or end has been set. *)
Theorem failed_comment_reads_to_the_end ws body lexer' :
  iswspace LPAREN = false ->
  forallb iswspace ws = true ->
  tree_sitter_wolfram_external_scanner_scan iswspace
    (lexer_on (ws ++ LPAREN :: STAR :: body)) = Some (false, lexer') ->
  rest lexer' = [] /\
  position lexer' = length (ws ++ LPAREN :: STAR :: body) /\
  token_start lexer' = length ws /\
  marked_end lexer' = None /\
  result_symbol lexer' = None.
Proof.
  intros Hp Hws. rewrite scan_opens by assumption.
  unfold scan_comment. intros H.
  apply loop_false in H as (Hr & Hpos & Ht & Hm & Hs).
  cbn [comment_opened rest position token_start marked_end result_symbol] in *.
  rewrite length_app. cbn [length]. repeat split; auto; lia.
Qed.

End Entry.

Section Offsets.

Variable iswspace : Z -> bool.

(** The scanner reads its input the same way wherever the input starts:
    moving the lexer by [n] moves what it reports by [n]. *)
Lemma body_shift n depth lexer :
  scan_comment_body depth (shift_lexer n lexer) =
  shift_iteration n (scan_comment_body depth lexer).
Proof.
  unfold scan_comment_body, lookahead, advance, shift_lexer.
  destruct lexer as [[|c [|c' r]] p ts me rs]; cbn;
    repeat match goal with
           | |- context [if ?b then _ else _] => destruct b; cbn
           end; reflexivity.
Qed.

Lemma loop_shift n fuel : forall depth lexer,
  scan_comment_loop fuel depth (shift_lexer n lexer) =
  option_map (shift_outcome n) (scan_comment_loop fuel depth lexer).
Proof.
  induction fuel as [|fuel IH]; intros depth lexer; cbn [scan_comment_loop];
    [reflexivity|].
  change (eof (shift_lexer n lexer)) with (eof lexer).
  destruct (eof lexer); [reflexivity|].
  rewrite body_shift.
  destruct (scan_comment_body depth lexer); cbn [shift_iteration];
    [reflexivity | apply IH].
Qed.

Lemma skip_shift n fuel : forall lexer,
  skip_whitespace iswspace fuel (shift_lexer n lexer) =
  option_map (shift_lexer n) (skip_whitespace iswspace fuel lexer).
Proof.
  induction fuel as [|fuel IH]; intros lexer; cbn [skip_whitespace];
    [reflexivity|].
  change (lookahead (shift_lexer n lexer)) with (lookahead lexer).
  destruct (iswspace (lookahead lexer)); [|reflexivity].
  rewrite <- IH. f_equal.
  destruct lexer as [[|c r] p ts me rs]; reflexivity.
Qed.

Lemma scan_shift n lexer :
  tree_sitter_wolfram_external_scanner_scan iswspace (shift_lexer n lexer) =
  option_map (shift_outcome n)
             (tree_sitter_wolfram_external_scanner_scan iswspace lexer).
Proof.
  unfold tree_sitter_wolfram_external_scanner_scan.
  change (rest (shift_lexer n lexer)) with (rest lexer).
  rewrite skip_shift.
  destruct (skip_whitespace iswspace (S (length (rest lexer))) lexer) as [l1|];
    [|reflexivity].
  cbn [option_map].
  change (lookahead (shift_lexer n l1)) with (lookahead l1).
  destruct (lookahead l1 =? LPAREN)%Z; [|reflexivity].
  assert (Hadv : forall l, advance (shift_lexer n l) false =
                           shift_lexer n (advance l false))
    by (intros [[|c r] p ts me rs]; reflexivity).
  rewrite Hadv.
  change (lookahead (shift_lexer n (advance l1 false)))
    with (lookahead (advance l1 false)).
  destruct (lookahead (advance l1 false) =? STAR)%Z; [|reflexivity].
  rewrite Hadv. unfold scan_comment.
  change (rest (shift_lexer n (advance (advance l1 false) false)))
    with (rest (advance (advance l1 false) false)).
  apply loop_shift.
Qed.

Lemma token_of_shift n r :
  token_of (shift_outcome n r) = shift_result n (token_of r).
Proof.
  destruct r as [[] [r p ts me rs]]; cbn; [|reflexivity].
  destruct rs; [|reflexivity]. destruct me; reflexivity.
Qed.

(** Skipping a white-space prefix leaves the lexer of the rest of the
    input, moved by the length of the prefix. *)
Lemma skip_prefix ws : forall s p ts fuel,
  forallb iswspace ws = true ->
  skip_whitespace iswspace (length ws + fuel)
    {| rest := ws ++ s; position := p; token_start := ts;
       marked_end := None; result_symbol := None |} =
  skip_whitespace iswspace fuel
    {| rest := s; position := (p + length ws)%nat;
       token_start := match ws with [] => ts | _ => (p + length ws)%nat end;
       marked_end := None; result_symbol := None |}.
Proof.
  induction ws as [|w ws IH]; intros s p ts fuel Hws.
  - cbn. rewrite Nat.add_0_r. reflexivity.
  - cbn in Hws. apply andb_true_iff in Hws as [Hw Hws].
    cbn [length Nat.add app skip_whitespace].
    unfold lookahead at 1. cbn [rest peek]. rewrite Hw.
    unfold advance. cbn [rest position token_start marked_end result_symbol].
    rewrite IH by assumption.
    f_equal. f_equal; destruct ws; cbn; lia.
Qed.

(** X3.  White space in front of an input changes nothing but the
    offsets: the scan of the longer input reports what the scan of the
    input reports, moved by the length of the white space. *)
Theorem leading_whitespace_only_moves_the_token ws s :
  forallb iswspace ws = true ->
  tokenize iswspace (ws ++ s) =
  option_map (shift_result (length ws)) (tokenize iswspace s).
Proof.
  intros Hws. unfold tokenize.
  assert (Hscan : tree_sitter_wolfram_external_scanner_scan iswspace
                    (lexer_on (ws ++ s)) =
                  tree_sitter_wolfram_external_scanner_scan iswspace
                    (shift_lexer (length ws) (lexer_on s))).
  { unfold tree_sitter_wolfram_external_scanner_scan at 1 2.
    cbn [rest lexer_on shift_lexer].
    rewrite length_app.
    replace (S (length ws + length s)) with (length ws + S (length s))%nat by lia.
    unfold lexer_on. rewrite skip_prefix by assumption.
    cbn [position token_start marked_end result_symbol option_map Nat.add].
    destruct ws; reflexivity. }
  rewrite Hscan, scan_shift.
  destruct (tree_sitter_wolfram_external_scanner_scan iswspace (lexer_on s));
    cbn [option_map]; [|reflexivity].
  now rewrite token_of_shift.
Qed.

End Offsets.

(** A tab and a newline in front of "(**)x". *)
Lemma leading_whitespace_only_moves_the_token_witness :
  tokenize iswspace_C ([9; 10] ++ codes "(**)x") =
  option_map (shift_result 2) (tokenize iswspace_C (codes "(**)x")).
Proof.
  apply (leading_whitespace_only_moves_the_token iswspace_C [9; 10] (codes "(**)x")).
  reflexivity.
Defined.

(** The comment in " (* a *) x", after one blank. *)
Lemma token_is_a_delimited_comment_witness :
  tokenize iswspace_C (codes " (* a *) x") = Some (Token COMMENT 1 8) /\
  COMMENT = COMMENT /\
  exists ws body lexer',
    tree_sitter_wolfram_external_scanner_scan iswspace_C
      (lexer_on (codes " (* a *) x")) = Some (true, lexer') /\
    codes " (* a *) x" =
      ws ++ LPAREN :: STAR :: body ++ STAR :: RPAREN :: rest lexer' /\
    forallb iswspace_C ws = true /\
    1%nat = length ws /\
    8%nat = (length ws + length body + 4)%nat /\
    position lexer' = 8%nat /\
    marked_end lexer' = Some 8%nat /\
    token_start lexer' = 1%nat /\
    result_symbol lexer' = Some COMMENT.
Proof.
  assert (H : tokenize iswspace_C (codes " (* a *) x") = Some (Token COMMENT 1 8))
    by reflexivity.
  split; [exact H|].
  exact (token_is_a_delimited_comment iswspace_C (codes " (* a *) x") COMMENT 1 8 H).
Defined.

(** The unterminated comment "  (* a": the cursor ends at offset 6. *)
Lemma failed_comment_reads_to_the_end_witness :
  rest {| rest := []; position := 6; token_start := 2;
          marked_end := None; result_symbol := None |} = [] /\
  6%nat = length (codes "  " ++ LPAREN :: STAR :: codes " a").
Proof.
  pose proof (failed_comment_reads_to_the_end iswspace_C (codes "  ") (codes " a")
                {| rest := []; position := 6; token_start := 2;
                   marked_end := None; result_symbol := None |}
                eq_refl eq_refl eq_refl) as (H1 & H2 & _).
  split; [exact H1 | exact H2].
Defined.

(** A comment with a nested comment, a blank in front and text behind. *)
Lemma scan_finds_matching_close_witness :
  tokenize iswspace_C
    (codes " " ++ LPAREN :: STAR :: codes " a (* b *) c *) d") =
  Some (match spec_matching_close 0 (codes " a (* b *) c *) d")
                                  (length (codes " ") + 2) with
        | Some e => Token COMMENT (length (codes " ")) e
        | None => NoToken
        end).
Proof.
  apply (scan_finds_matching_close iswspace_C (codes " ")
           (codes " a (* b *) c *) d")).
  - reflexivity.
  - reflexivity.
  - reflexivity.
Defined.

(** At depth 1, in front of "(*) *)". *)
Lemma open_close_is_passed_over_witness :
  scan_comment_loop (3 + 4) 1
    {| rest := LPAREN :: STAR :: RPAREN :: codes " *)"; position := 2;
       token_start := 0; marked_end := None; result_symbol := None |} =
  scan_comment_loop 4 1
    {| rest := codes " *)"; position := 3 + 2;
       token_start := 0; marked_end := None; result_symbol := None |}.
Proof.
  apply (open_close_is_passed_over 1 (codes " *)") 2 0 None None 4).
  discriminate.
Defined.

End ScannerCoverage.

(* ================================================================== *)
(** ** More on the generator: splitting and expansion                  *)
(* ================================================================== *)

Module ExpansionFacts.
Import Generator GeneratorFacts.
Local Open Scope string_scope.
Local Open Scope nat_scope.

(** *** Substrings of concatenations *)

Lemma append_nil_r (s : string) : s ++ "" = s.
Proof. induction s as [|c s IH]; cbn; [reflexivity | now rewrite IH]. Qed.

Lemma substring_app_skip a : forall b n m,
  substring (String.length a + n) m (a ++ b) = substring n m b.
Proof. induction a as [|c a IH]; intros b n m; cbn; [reflexivity | apply IH]. Qed.

Lemma substring_0_app a : forall b m,
  substring 0 (String.length a + m) (a ++ b) = a ++ substring 0 m b.
Proof.
  induction a as [|c a IH]; intros b m; cbn; [reflexivity | now rewrite IH].
Qed.

Lemma substring_0_0 s : substring 0 0 s = "".
Proof. destruct s; reflexivity. Qed.

Lemma js_substring_middle a b c :
  js_substring (a ++ b ++ c) (String.length a) (String.length a + String.length b) = b.
Proof.
  unfold js_substring.
  replace (String.length a + String.length b - String.length a)
    with (String.length b + 0) by lia.
  rewrite <- (Nat.add_0_r (String.length a)) at 1.
  rewrite substring_app_skip, substring_0_app, substring_0_0.
  apply append_nil_r.
Qed.

Lemma js_substring_from_app a b :
  js_substring_from (a ++ b) (String.length a) = b.
Proof.
  unfold js_substring_from. rewrite length_append.
  replace (String.length a + String.length b - String.length a)
    with (String.length b) by lia.
  rewrite <- (Nat.add_0_r (String.length a)) at 1.
  rewrite substring_app_skip. apply substring_whole.
Qed.

Lemma js_substring_prefix a b :
  js_substring (a ++ b) 0 (String.length a) = a.
Proof.
  pose proof (js_substring_middle "" a b) as H. cbn in H. exact H.
Qed.

Lemma startsWith_app a b : startsWith (a ++ b) a = true.
Proof.
  unfold startsWith. induction a as [|c a IH]; cbn.
  - destruct b; reflexivity.
  - destruct (ascii_dec c c); [exact IH | contradiction].
Qed.

(** *** [splitTopLevel] by pieces *)

Lemma split_loop_by_pieces s : forall todo pre cur depth parts,
  s = pre ++ cur ++ todo ->
  splitTopLevel_loop s todo (String.length pre + String.length cur) depth
                     (String.length pre) parts =
  (parts ++ split_acc todo depth cur)%list.
Proof.
  induction todo as [|c todo IH]; intros pre cur depth parts Hs;
    cbn [splitTopLevel_loop split_acc].
  - subst s. rewrite append_nil_r, js_substring_from_app. reflexivity.
  - assert (Hnext : s = pre ++ (cur ++ String c "") ++ todo)
      by (subst s; rewrite append_assoc; reflexivity).
    assert (Hidx : S (String.length pre + String.length cur) =
                   String.length pre + String.length (cur ++ String c ""))
      by (rewrite length_append; cbn; lia).
    destruct (Ascii.eqb c LP); [rewrite Hidx; now apply IH|].
    destruct (Ascii.eqb c RP); [rewrite Hidx; now apply IH|].
    destruct (Ascii.eqb c BAR && (depth =? 0)%Z); [|rewrite Hidx; now apply IH].
    assert (Hpre : S (String.length pre + String.length cur) =
                   String.length (pre ++ cur ++ String c ""))
      by (rewrite !length_append; cbn; lia).
    rewrite Hpre.
    pose proof (IH (pre ++ cur ++ String c "") "" depth
                   (parts ++ [js_substring s (String.length pre)
                                (String.length pre + String.length cur)])%list) as H.
    cbn [String.length] in H. rewrite Nat.add_0_r in H.
    rewrite H.
    + subst s. rewrite js_substring_middle, <- app_assoc. reflexivity.
    + subst s. rewrite !append_assoc. reflexivity.
Qed.

Lemma splitTopLevel_by_pieces s : splitTopLevel s = split_acc s 0%Z "".
Proof.
  unfold splitTopLevel.
  exact (split_loop_by_pieces s s "" "" 0%Z [] eq_refl).
Qed.

Lemma split_acc_not_nil todo : forall depth cur, split_acc todo depth cur <> [].
Proof.
  induction todo as [|c todo IH]; intros depth cur; cbn; [discriminate|].
  destruct (Ascii.eqb c LP); [apply IH|].
  destruct (Ascii.eqb c RP); [apply IH|].
  destruct (Ascii.eqb c BAR && (depth =? 0)%Z); [discriminate | apply IH].
Qed.

Lemma join_cons sep x l :
  l <> [] -> join sep (x :: l) = x ++ sep ++ join sep l.
Proof. destruct l; [contradiction | reflexivity]. Qed.

Lemma join_split_acc todo : forall depth cur,
  join "|" (split_acc todo depth cur) = cur ++ todo.
Proof.
  induction todo as [|c todo IH]; intros depth cur; cbn [split_acc].
  - cbn. now rewrite append_nil_r.
  - assert (Hstep : join "|" (split_acc todo depth (cur ++ String c "")) =
                    cur ++ String c todo)
      by (rewrite IH, append_assoc; reflexivity).
    destruct (Ascii.eqb c LP); [rewrite IH, append_assoc; reflexivity|].
    destruct (Ascii.eqb c RP); [rewrite IH, append_assoc; reflexivity|].
    destruct (Ascii.eqb c BAR && (depth =? 0)%Z) eqn:Hbar; [|exact Hstep].
    apply andb_true_iff in Hbar as [Hc _]. apply Ascii.eqb_eq in Hc. subst c.
    rewrite join_cons by apply split_acc_not_nil.
    rewrite IH. reflexivity.
Qed.

(** X6.  Splitting loses nothing: the pieces of [splitTopLevel], joined
    with bars again, are the string that was split; and there is always
    at least one piece. *)
Theorem splitTopLevel_join s :
  join "|" (splitTopLevel s) = s /\ splitTopLevel s <> [].
Proof.
  rewrite splitTopLevel_by_pieces. split.
  - apply (join_split_acc s 0%Z "").
  - apply split_acc_not_nil.
Qed.

(** *** The recursion of [doExpand] without the fuel *)

Lemma for_each_cons f a alts results :
  for_each f (a :: alts) results =
  match f a results with
  | Some r => for_each f alts r
  | None => None
  end.
Proof.
  unfold for_each. cbn. destruct (f a results); [reflexivity|].
  induction alts as [|b alts IH]; [reflexivity | exact IH].
Qed.

Lemma for_each_flat f g alts :
  (forall alt, In alt alts -> forall r, f alt r = Some (r ++ g alt)%list) ->
  forall results, for_each f alts results = Some (results ++ flat_map g alts)%list.
Proof.
  induction alts as [|a alts IH]; intros Hf results.
  - cbn. now rewrite app_nil_r.
  - rewrite for_each_cons, (Hf a (or_introl eq_refl)).
    rewrite IH by (intros alt Hin; apply Hf; now right).
    cbn. now rewrite app_assoc.
Qed.

Lemma bar_pieces_shorter s alt :
  doExpand_scan s 0 0%Z None = TopLevelBar ->
  In alt (splitTopLevel s) ->
  String.length alt < String.length s.
Proof.
  intros Hscan Hin.
  pose proof (split_loop_strict s s 0 0%Z None 0 [] Hscan eq_refl (le_n _)
                (Forall_nil _)) as Hall.
  rewrite Forall_forall in Hall. specialize (Hall alt Hin).
  unfold shorter_than in Hall.
  destruct s; [discriminate|]. cbn [String.length] in *. lia.
Qed.

Lemma group_pieces_shorter s parenStart parenEnd alt :
  doExpand_close (js_substring_from s parenStart) parenStart 0%Z = Some parenEnd ->
  In alt (splitTopLevel
            (if startsWith (js_substring s (parenStart + 1) parenEnd) "?:"
             then js_substring_from (js_substring s (parenStart + 1) parenEnd) 2
             else js_substring s (parenStart + 1) parenEnd)) ->
  String.length (js_substring s 0 parenStart ++ alt ++
                 js_substring_from s (parenEnd + 1)) < String.length s.
Proof.
  intros Hclose Hin.
  apply doExpand_close_bound in Hclose.
  pose proof (js_substring_from_length s parenStart) as Htail.
  pose proof (js_substring_length s 0 parenStart) as Hpre.
  pose proof (js_substring_from_length s (parenEnd + 1)) as Hsuf.
  pose proof (js_substring_length s (parenStart + 1) parenEnd) as Hinner.
  set (inner := js_substring s (parenStart + 1) parenEnd) in *.
  assert (Halt : String.length alt <= String.length inner).
  { destruct (startsWith inner "?:").
    - pose proof (splitTopLevel_bound (js_substring_from inner 2)) as Hall.
      rewrite Forall_forall in Hall. specialize (Hall alt Hin).
      unfold shorter_than in Hall.
      pose proof (js_substring_from_length inner 2). lia.
    - pose proof (splitTopLevel_bound inner) as Hall.
      rewrite Forall_forall in Hall. exact (Hall alt Hin). }
  rewrite !length_append. lia.
Qed.

Lemma push_nonempty_app results x :
  push_nonempty results x = (results ++ push_nonempty [] x)%list.
Proof.
  unfold push_nonempty. destruct (0 <? String.length x); cbn;
    [reflexivity | now rewrite app_nil_r].
Qed.

(** One call, given what the recursive calls on shorter strings do. *)
Lemma doExpand_step fuel s rec results :
  (forall s' r, String.length s' < String.length s ->
                doExpand fuel s' r = Some (r ++ rec s')%list) ->
  doExpand (S fuel) s results = Some (results ++ expand_step s rec)%list.
Proof.
  intros Hrec. cbn [doExpand]. unfold expand_step.
  destruct (doExpand_scan s 0 0%Z None) as [|[ps|]] eqn:Hscan.
  - apply for_each_flat. intros alt Hin r. apply Hrec.
    now apply bar_pieces_shorter.
  - destruct (doExpand_close (js_substring_from s ps) ps 0%Z) as [pe|] eqn:Hclose.
    + cbv zeta.
      apply (for_each_flat
               (fun alt => doExpand fuel (js_substring s 0 ps ++ alt ++
                                          js_substring_from s (pe + 1)))
               (fun alt => rec (js_substring s 0 ps ++ alt ++
                                js_substring_from s (pe + 1)))).
      intros alt Hin r. apply Hrec.
      now apply (group_pieces_shorter s ps pe alt).
    + now rewrite push_nonempty_app.
  - now rewrite push_nonempty_app.
Qed.

Lemma doExpand_any_fuel n : forall s fuel results,
  String.length s <= n ->
  String.length s < fuel ->
  doExpand fuel s results = Some (results ++ expandTrie s)%list.
Proof.
  induction n as [|n IH]; intros s fuel results Hn Hfuel.
  - destruct s; [|cbn in Hn; lia].
    destruct fuel; [lia|]. cbn. now rewrite app_nil_r.
  - assert (Hstep : forall f r, String.length s <= f ->
              doExpand (S f) s r = Some (r ++ expand_step s expandTrie)%list).
    { intros f r Hf. apply doExpand_step.
      intros s' r' Hs'. apply IH; lia. }
    assert (Hexp : expandTrie s = expand_step s expandTrie).
    { unfold expandTrie at 1. now rewrite Hstep. }
    destruct fuel; [lia|]. rewrite Hstep by lia. now rewrite Hexp.
Qed.

(** X7.  A call of [doExpand] leaves what is in [results] in place and
    appends the names of the string, the same names whatever [results]
    held and however deep the call is nested. *)
Theorem doExpand_appends fuel s results :
  String.length s < fuel ->
  doExpand fuel s results = Some (results ++ expandTrie s)%list.
Proof. intros H. now apply (doExpand_any_fuel (String.length s)). Qed.

(** [expandTrie] obeys the recursion of the source, with no bound. *)
Lemma expandTrie_unfold s : expandTrie s = expand_step s expandTrie.
Proof.
  unfold expandTrie at 1.
  rewrite (doExpand_step (String.length s) s expandTrie []); [reflexivity|].
  intros s' r Hs'. now apply (doExpand_any_fuel (String.length s')); lia.
Qed.

Lemma doExpand_appends_witness :
  doExpand 20 "A(?:bs|dd)" ["Zeta"] = Some (["Zeta"] ++ expandTrie "A(?:bs|dd)")%list.
Proof. apply (doExpand_appends 20 "A(?:bs|dd)" ["Zeta"]). cbn. lia. Defined.

(** X8.  No name that [expandTrie] returns is the empty string. *)
Theorem expandTrie_names_not_empty s :
  Forall (fun name => name <> "") (expandTrie s).
Proof.
  remember (String.length s) as n eqn:Hn.
  revert s Hn. induction n as [n IH] using lt_wf_ind. intros s Hn.
  assert (Hpush : forall x, Forall (fun name => name <> "") (push_nonempty [] x)).
  { intros x. unfold push_nonempty. destruct x; cbn; constructor;
      [discriminate | constructor]. }
  rewrite expandTrie_unfold. unfold expand_step.
  destruct (doExpand_scan s 0 0%Z None) as [|[ps|]] eqn:Hscan; [| |apply Hpush].
  - apply Forall_flat_map, Forall_forall. intros alt Hin.
    apply (IH (String.length alt)); [|reflexivity].
    subst n. now apply bar_pieces_shorter.
  - destruct (doExpand_close (js_substring_from s ps) ps 0%Z) as [pe|] eqn:Hclose;
      [|apply Hpush].
    cbv zeta. apply Forall_flat_map, Forall_forall. intros alt Hin.
    eapply IH; [|reflexivity].
    subst n. now apply (group_pieces_shorter s ps pe alt).
Qed.

(** *** Strings without parentheses and bars *)

Lemma plain_char_tests c :
  plain_char c = true ->
  Ascii.eqb c LP = false /\ Ascii.eqb c RP = false /\ Ascii.eqb c BAR = false.
Proof.
  unfold plain_char. intros H. apply negb_true_iff in H.
  apply orb_false_iff in H as [H H3]. apply orb_false_iff in H as [H1 H2].
  auto.
Qed.

Lemma all_chars_app p a : forall b,
  all_chars p (a ++ b) = all_chars p a && all_chars p b.
Proof.
  induction a as [|c a IH]; intros b; cbn; [reflexivity|].
  now rewrite IH, andb_assoc.
Qed.

Lemma scan_plain a : forall rest i depth parenStart,
  plain a = true ->
  doExpand_scan (a ++ rest) i depth parenStart =
  doExpand_scan rest (i + String.length a) depth parenStart.
Proof.
  induction a as [|c a IH]; intros rest i depth ps Ha; cbn [append String.length].
  - now rewrite Nat.add_0_r.
  - cbn in Ha. apply andb_true_iff in Ha as [Hc Ha].
    destruct (plain_char_tests c Hc) as (H1 & H2 & H3).
    cbn [doExpand_scan]. rewrite H1, H2, H3. cbn [andb].
    rewrite IH by assumption. f_equal. lia.
Qed.

Lemma close_plain a : forall rest i depth,
  plain a = true ->
  doExpand_close (a ++ rest) i depth =
  doExpand_close rest (i + String.length a) depth.
Proof.
  induction a as [|c a IH]; intros rest i depth Ha; cbn [append String.length].
  - now rewrite Nat.add_0_r.
  - cbn in Ha. apply andb_true_iff in Ha as [Hc Ha].
    destruct (plain_char_tests c Hc) as (H1 & H2 & H3).
    cbn [doExpand_close]. rewrite H1, H2.
    rewrite IH by assumption. f_equal. lia.
Qed.

Lemma split_plain a : forall rest depth cur,
  plain a = true ->
  split_acc (a ++ rest) depth cur = split_acc rest depth (cur ++ a).
Proof.
  induction a as [|c a IH]; intros rest depth cur Ha; cbn [append].
  - now rewrite append_nil_r.
  - cbn in Ha. apply andb_true_iff in Ha as [Hc Ha].
    destruct (plain_char_tests c Hc) as (H1 & H2 & H3).
    cbn [split_acc]. rewrite H1, H2, H3. cbn [andb].
    rewrite IH by assumption. now rewrite append_assoc.
Qed.

Lemma balance_plain a : forall rest depth,
  plain a = true ->
  balance (a ++ rest) depth = balance rest depth.
Proof.
  induction a as [|c a IH]; intros rest depth Ha; cbn [append]; [reflexivity|].
  cbn in Ha. apply andb_true_iff in Ha as [Hc Ha].
  destruct (plain_char_tests c Hc) as (H1 & H2 & H3).
  cbn [balance]. rewrite H1, H2. now apply IH.
Qed.

(** A plain string is a name of its own. *)
Lemma expandTrie_plain s :
  plain s = true -> expandTrie s = push_nonempty [] s.
Proof.
  intros Hs. rewrite expandTrie_unfold. unfold expand_step.
  rewrite <- (append_nil_r s) at 1. rewrite scan_plain by assumption.
  reflexivity.
Qed.

(** *** Expressions of tries *)

(** Equations between lengths of concatenations. *)
Ltac lengths :=
  repeat (rewrite length_append || cbn [String.length append]); lia.

(** Inside a group, the expression of a trie is passed over by the two
    loops of [doExpand], by [splitTopLevel] and by the balance check. *)
Lemma scan_print_inside :
  (forall t, pieces plain t = true ->
     forall rest i depth ps, (1 <= depth)%Z ->
       doExpand_scan (print t ++ rest) i depth ps =
       doExpand_scan rest (i + String.length (print t)) depth ps) /\
  (forall ts, pieces_all plain ts = true ->
     forall rest i depth ps, (1 <= depth)%Z ->
       doExpand_scan (print_all ts ++ rest) i depth ps =
       doExpand_scan rest (i + String.length (print_all ts)) depth ps).
Proof.
  apply trie_mutual_ind.
  - intros lit Hlit rest i depth ps Hd. cbn in *. now apply scan_plain.
  - intros lit ts IH Hwf rest i depth ps Hd.
    cbn [pieces] in Hwf. apply andb_true_iff in Hwf as [Hlit Hts].
    cbn [print]. rewrite !append_assoc.
    rewrite scan_plain by assumption.
    cbn [append doExpand_scan]. cbn [Ascii.eqb Bool.eqb LP RP BAR andb].
    replace (depth =? 0)%Z with false by (symmetry; apply Z.eqb_neq; lia).
    rewrite IH by (auto; lia).
    cbn [append doExpand_scan]. cbn [Ascii.eqb Bool.eqb LP RP BAR andb].
    replace (depth + 1 - 1)%Z with depth by lia.
    f_equal. lengths.
  - intros t IH Hwf rest i depth ps Hd. cbn in *. now apply IH.
  - intros t IHt ts IHts Hwf rest i depth ps Hd.
    cbn [pieces_all] in Hwf. apply andb_true_iff in Hwf as [Ht Hts].
    cbn [print_all]. rewrite !append_assoc.
    rewrite IHt by assumption.
    cbn [append doExpand_scan]. cbn [Ascii.eqb Bool.eqb LP RP BAR andb].
    replace (depth =? 0)%Z with false by (symmetry; apply Z.eqb_neq; lia).
    rewrite IHts by assumption.
    f_equal. lengths.
Qed.

Lemma close_print_inside :
  (forall t, pieces plain t = true ->
     forall rest i depth, (1 <= depth)%Z ->
       doExpand_close (print t ++ rest) i depth =
       doExpand_close rest (i + String.length (print t)) depth) /\
  (forall ts, pieces_all plain ts = true ->
     forall rest i depth, (1 <= depth)%Z ->
       doExpand_close (print_all ts ++ rest) i depth =
       doExpand_close rest (i + String.length (print_all ts)) depth).
Proof.
  apply trie_mutual_ind.
  - intros lit Hlit rest i depth Hd. cbn in *. now apply close_plain.
  - intros lit ts IH Hwf rest i depth Hd.
    cbn [pieces] in Hwf. apply andb_true_iff in Hwf as [Hlit Hts].
    cbn [print]. rewrite !append_assoc.
    rewrite close_plain by assumption.
    cbn [append doExpand_close]. cbn [Ascii.eqb Bool.eqb LP RP BAR].
    rewrite IH by (auto; lia).
    cbn [append doExpand_close]. cbn [Ascii.eqb Bool.eqb LP RP BAR].
    replace (depth + 1 - 1 =? 0)%Z with false by (symmetry; apply Z.eqb_neq; lia).
    replace (depth + 1 - 1)%Z with depth by lia.
    f_equal. lengths.
  - intros t IH Hwf rest i depth Hd. cbn in *. now apply IH.
  - intros t IHt ts IHts Hwf rest i depth Hd.
    cbn [pieces_all] in Hwf. apply andb_true_iff in Hwf as [Ht Hts].
    cbn [print_all]. rewrite !append_assoc.
    rewrite IHt by assumption.
    cbn [append doExpand_close]. cbn [Ascii.eqb Bool.eqb LP RP BAR].
    rewrite IHts by assumption.
    f_equal. lengths.
Qed.

Lemma split_print_inside :
  (forall t, pieces plain t = true ->
     forall rest depth cur, (0 <= depth)%Z ->
       split_acc (print t ++ rest) depth cur =
       split_acc rest depth (cur ++ print t)) /\
  (forall ts, pieces_all plain ts = true ->
     forall rest depth cur, (1 <= depth)%Z ->
       split_acc (print_all ts ++ rest) depth cur =
       split_acc rest depth (cur ++ print_all ts)).
Proof.
  apply trie_mutual_ind.
  - intros lit Hlit rest depth cur Hd. cbn in *. now apply split_plain.
  - intros lit ts IH Hwf rest depth cur Hd.
    cbn [pieces] in Hwf. apply andb_true_iff in Hwf as [Hlit Hts].
    cbn [print]. rewrite !append_assoc.
    rewrite split_plain by assumption.
    cbn [append split_acc]. cbn [Ascii.eqb Bool.eqb LP RP BAR andb].
    rewrite IH by (auto; lia).
    cbn [append split_acc]. cbn [Ascii.eqb Bool.eqb LP RP BAR andb].
    replace (depth + 1 - 1)%Z with depth by lia.
    f_equal. rewrite !append_assoc. reflexivity.
  - intros t IH Hwf rest depth cur Hd. cbn in *. apply IH; [assumption | lia].
  - intros t IHt ts IHts Hwf rest depth cur Hd.
    cbn [pieces_all] in Hwf. apply andb_true_iff in Hwf as [Ht Hts].
    cbn [print_all]. rewrite !append_assoc.
    rewrite IHt by (auto; lia).
    cbn [append split_acc]. cbn [Ascii.eqb Bool.eqb LP RP BAR andb].
    replace (depth =? 0)%Z with false by (symmetry; apply Z.eqb_neq; lia).
    rewrite IHts by assumption.
    f_equal. rewrite !append_assoc. reflexivity.
Qed.

Lemma balance_print_inside :
  (forall t, pieces plain t = true ->
     forall rest depth, (0 <= depth)%Z ->
       balance (print t ++ rest) depth = balance rest depth) /\
  (forall ts, pieces_all plain ts = true ->
     forall rest depth, (0 <= depth)%Z ->
       balance (print_all ts ++ rest) depth = balance rest depth).
Proof.
  apply trie_mutual_ind.
  - intros lit Hlit rest depth Hd. cbn in *. now apply balance_plain.
  - intros lit ts IH Hwf rest depth Hd.
    cbn [pieces] in Hwf. apply andb_true_iff in Hwf as [Hlit Hts].
    cbn [print]. rewrite !append_assoc.
    rewrite balance_plain by assumption.
    cbn [append balance]. cbn [Ascii.eqb Bool.eqb LP RP BAR].
    rewrite IH by (auto; lia).
    cbn [append balance]. cbn [Ascii.eqb Bool.eqb LP RP BAR].
    replace (depth + 1 - 1 <? 0)%Z with false by (symmetry; apply Z.ltb_ge; lia).
    replace (depth + 1 - 1)%Z with depth by lia.
    reflexivity.
  - intros t IH Hwf rest depth Hd. cbn in *. now apply IH.
  - intros t IHt ts IHts Hwf rest depth Hd.
    cbn [pieces_all] in Hwf. apply andb_true_iff in Hwf as [Ht Hts].
    cbn [print_all]. rewrite !append_assoc.
    rewrite IHt by assumption.
    cbn [append balance]. cbn [Ascii.eqb Bool.eqb LP RP BAR].
    now apply IHts.
Qed.

(** At depth 0 the first loop of [doExpand] passes over the expression
    of a trie as well, and remembers its parenthesis. *)
Lemma scan_print_top t rest i ps :
  pieces plain t = true ->
  doExpand_scan (print t ++ rest) i 0%Z ps =
  doExpand_scan rest (i + String.length (print t)) 0%Z (top_paren t i ps).
Proof.
  destruct t as [lit|lit ts]; intros Hwf.
  - cbn in *. now apply scan_plain.
  - cbn [pieces] in Hwf. apply andb_true_iff in Hwf as [Hlit Hts].
    cbn [print top_paren]. rewrite !append_assoc.
    rewrite scan_plain by assumption.
    cbn [append doExpand_scan]. cbn [Ascii.eqb Bool.eqb LP RP BAR andb Z.eqb].
    rewrite (proj2 scan_print_inside) by (auto; lia).
    cbn [append doExpand_scan]. cbn [Ascii.eqb Bool.eqb LP RP BAR andb Z.add Z.sub].
    f_equal. lengths.
Qed.

(** At depth 0 the bars between the alternatives are where
    [splitTopLevel] cuts. *)
Lemma split_prints ts : forall cur,
  pieces_all plain ts = true ->
  split_acc (print_all ts) 0%Z cur =
  match prints ts with
  | x :: l => (cur ++ x) :: l
  | [] => []
  end.
Proof.
  induction ts as [t|t ts IH]; intros cur Hwf; cbn [print_all prints pieces_all] in *.
  - rewrite <- (append_nil_r (print t)) at 1.
    rewrite (proj1 split_print_inside) by (auto; lia). reflexivity.
  - apply andb_true_iff in Hwf as [Ht Hts].
    rewrite (proj1 split_print_inside) by (auto; lia).
    cbn [append split_acc]. cbn [Ascii.eqb Bool.eqb LP RP BAR andb Z.eqb].
    rewrite IH by assumption.
    destruct (prints ts) eqn:E; [destruct ts; discriminate | reflexivity].
Qed.

Lemma splitTopLevel_prints ts :
  pieces_all plain ts = true -> splitTopLevel (print_all ts) = prints ts.
Proof.
  intros Hwf. rewrite splitTopLevel_by_pieces, split_prints by assumption.
  destruct (prints ts); reflexivity.
Qed.

Lemma js_substring_from_end s : js_substring_from s (String.length s) = "".
Proof.
  pose proof (js_substring_from_app s "") as H.
  now rewrite append_nil_r in H.
Qed.

(** How [doExpand] takes apart a shared piece [p] followed by the group
    of the alternatives [ts]. *)
Section Group.

Variable p : string.
Variable ts : tries.
Hypothesis p_plain : plain p = true.
Hypothesis ts_plain : pieces_all plain ts = true.

Lemma group_scan :
  doExpand_scan (group_expr p ts) 0 0%Z None = ScanDone (Some (String.length p)).
Proof.
  unfold group_expr. rewrite scan_plain by assumption.
  cbn [append doExpand_scan]. cbn [Ascii.eqb Bool.eqb LP RP BAR andb Z.eqb].
  rewrite (proj2 scan_print_inside) by (auto; lia).
  reflexivity.
Qed.

Lemma group_close :
  doExpand_close (js_substring_from (group_expr p ts) (String.length p))
                 (String.length p) 0%Z =
  Some (String.length p + 3 + String.length (print_all ts)).
Proof.
  unfold group_expr. rewrite js_substring_from_app.
  cbn [append doExpand_close]. cbn [Ascii.eqb Bool.eqb LP RP BAR].
  rewrite (proj2 close_print_inside) by (auto; lia).
  cbn [append doExpand_close]. cbn [Ascii.eqb Bool.eqb LP RP BAR].
  change (0 + 1 - 1 =? 0)%Z with true. cbv iota.
  f_equal. lia.
Qed.

Lemma group_prefix : js_substring (group_expr p ts) 0 (String.length p) = p.
Proof. apply js_substring_prefix. Qed.

Lemma group_inner :
  js_substring (group_expr p ts) (String.length p + 1)
               (String.length p + 3 + String.length (print_all ts)) =
  "?:" ++ print_all ts.
Proof.
  assert (Hs : group_expr p ts = (p ++ "(") ++ ("?:" ++ print_all ts) ++ ")")
    by (unfold group_expr; rewrite append_assoc; reflexivity).
  rewrite Hs.
  replace (String.length p + 1) with (String.length (p ++ "(")) by lengths.
  replace (String.length p + 3 + String.length (print_all ts))
    with (String.length (p ++ "(") + String.length ("?:" ++ print_all ts))
    by lengths.
  apply js_substring_middle.
Qed.

Lemma group_suffix :
  js_substring_from (group_expr p ts)
                    (String.length p + 3 + String.length (print_all ts) + 1) = "".
Proof.
  replace (String.length p + 3 + String.length (print_all ts) + 1)
    with (String.length (group_expr p ts))
    by (unfold group_expr; lengths).
  apply js_substring_from_end.
Qed.

(** The call hands each alternative, with [p] in front, to the
    recursion. *)
Lemma group_step rec :
  expand_step (group_expr p ts) rec =
  flat_map (fun alt => rec (p ++ alt ++ "")) (prints ts).
Proof.
  unfold expand_step.
  rewrite group_scan, group_close. cbv zeta.
  rewrite group_prefix, group_inner, group_suffix.
  rewrite startsWith_app.
  change 2 with (String.length "?:").
  rewrite js_substring_from_app.
  now rewrite splitTopLevel_prints.
Qed.

End Group.

Lemma filter_nonempty_push x : push_nonempty [] x = filter nonempty [x].
Proof.
  unfold push_nonempty, nonempty. cbn. destruct (0 <? String.length x); reflexivity.
Qed.

(** The expansion of the expression of a trie, with a plain string in
    front, is the list of the names of the trie with that string in
    front, the empty name left out. *)
Lemma expand_print :
  (forall t, pieces plain t = true ->
     forall pre, plain pre = true ->
       expandTrie (pre ++ print t) =
       filter nonempty (map (append pre) (names_of t))) /\
  (forall ts, pieces_all plain ts = true ->
     forall pre, plain pre = true ->
       flat_map (fun alt => expandTrie (pre ++ alt ++ "")) (prints ts) =
       filter nonempty (map (append pre) (names_of_all ts))).
Proof.
  apply trie_mutual_ind.
  - intros lit Hlit pre Hpre. cbn [print names_of map pieces] in *.
    rewrite expandTrie_plain
      by (unfold plain in *; rewrite all_chars_app, Hpre, Hlit; reflexivity).
    apply filter_nonempty_push.
  - intros lit ts IH Hwf pre Hpre.
    cbn [pieces] in Hwf. apply andb_true_iff in Hwf as [Hlit Hts].
    assert (Hp : plain (pre ++ lit) = true)
      by (unfold plain in *; rewrite all_chars_app, Hpre, Hlit; reflexivity).
    cbn [print names_of]. rewrite <- append_assoc.
    change ((pre ++ lit) ++ "(?:" ++ print_all ts ++ ")")
      with (group_expr (pre ++ lit) ts).
    rewrite expandTrie_unfold, group_step by assumption.
    rewrite IH by assumption.
    rewrite map_map. f_equal. apply map_ext. intros x. apply append_assoc.
  - intros t IH Hwf pre Hpre. cbn [pieces_all prints names_of_all flat_map] in *.
    rewrite app_nil_r, append_nil_r. now apply IH.
  - intros t IHt ts IHts Hwf pre Hpre.
    cbn [pieces_all] in Hwf. apply andb_true_iff in Hwf as [Ht Hts].
    cbn [prints names_of_all flat_map].
    rewrite append_nil_r, IHt, IHts by assumption.
    now rewrite map_app, filter_app.
Qed.

(** The expansion of the alternatives of a trie. *)
Lemma expand_print_all ts :
  pieces_all plain ts = true ->
  expandTrie (print_all ts) = filter nonempty (names_of_all ts).
Proof.
  intros Hwf.
  assert (Hall : flat_map expandTrie (prints ts) = filter nonempty (names_of_all ts)).
  { pose proof (proj2 expand_print ts Hwf "" eq_refl) as H.
    cbn [append] in H. rewrite map_id in H. rewrite <- H.
    apply flat_map_ext. intros alt. now rewrite append_nil_r. }
  destruct ts as [t|t ts].
  - cbn [print_all prints flat_map] in *. now rewrite app_nil_r in Hall.
  - cbn [pieces_all] in Hwf. apply andb_true_iff in Hwf as [Ht Hts].
    rewrite expandTrie_unfold. unfold expand_step.
    assert (Hscan : doExpand_scan (print_all (More t ts)) 0 0%Z None = TopLevelBar).
    { cbn [print_all]. rewrite scan_print_top by assumption. reflexivity. }
    rewrite Hscan, splitTopLevel_prints; [exact Hall|].
    cbn [pieces_all]. now rewrite Ht, Hts.
Qed.

(** X9.  Expansion undoes the compression into a trie: for every trie
    whose pieces hold no parenthesis and no bar, [expandTrie] of the
    expression of its alternatives returns the names of the trie, in
    the order of the leaves, each once per leaf, the empty name left
    out. *)
Theorem expandTrie_of_trie ts :
  pieces_all plain ts = true ->
  expandTrie (print_all ts) = filter nonempty (names_of_all ts).
Proof. exact (expand_print_all ts). Qed.

(** The trie of the specification's second example. *)
Lemma expandTrie_of_trie_witness :
  expandTrie "X(?:ML(?:Element|Object)|YZColor|nor|or)" =
  ["XMLElement"; "XMLObject"; "XYZColor"; "Xnor"; "Xor"].
Proof.
  apply (expandTrie_of_trie
           (One (Branch "X"
                   (More (Branch "ML" (More (Leaf "Element") (One (Leaf "Object"))))
                   (More (Leaf "YZColor") (More (Leaf "nor") (One (Leaf "or")))))))).
  reflexivity.
Defined.

(** *** The steps of [extractSymbolNames] on a pattern of the grammar *)

Lemma endsWith_app a b : endsWith (a ++ b) b = true.
Proof.
  unfold endsWith. rewrite length_append.
  replace (String.length a + String.length b - String.length b)
    with (String.length a) by lia.
  rewrite js_substring_from_app, String.eqb_refl.
  replace (String.length b <=? String.length a + String.length b) with true
    by (symmetry; apply Nat.leb_le; lia).
  reflexivity.
Qed.

Lemma guard_is_found cls :
  no_line_terminator cls = true ->
  lookahead_here ("(?![" ++ cls ++ "])") = true.
Proof.
  intros Hcls. unfold lookahead_here.
  rewrite startsWith_app.
  change 4 with (String.length "(?![").
  rewrite js_substring_from_app, endsWith_app.
  replace (String.length (cls ++ "])") - 2) with (String.length cls) by lengths.
  now rewrite js_substring_prefix, Hcls.
Qed.

Lemma guard_not_before c body rest :
  no_bang (String c body) = true ->
  lookahead_here (String c body ++ "(?![" ++ rest) = false.
Proof.
  intros Hb. unfold lookahead_here.
  replace (startsWith (String c body ++ "(?![" ++ rest) "(?![") with false;
    [reflexivity|].
  symmetry. unfold startsWith. cbn [append prefix].
  destruct (ascii_dec "(" c); [|reflexivity].
  destruct body as [|c2 [|c3 body]]; cbn [append prefix].
  - reflexivity.
  - destruct (ascii_dec "?" c2); reflexivity.
  - destruct (ascii_dec "?" c2); [|reflexivity].
    destruct (ascii_dec "!" c3) as [<-|]; [|reflexivity].
    cbn in Hb. rewrite !andb_false_r in Hb. discriminate.
Qed.

(** The guard is found where it starts and not before. *)
Lemma strip_guard body cls :
  no_bang body = true ->
  no_line_terminator cls = true ->
  strip_lookahead (body ++ "(?![" ++ cls ++ "])") = body.
Proof.
  intros Hbody Hcls. induction body as [|c body IH].
  - pose proof (guard_is_found cls Hcls) as H.
    cbn [append] in H |- *. cbn [strip_lookahead]. now rewrite H.
  - pose proof (guard_not_before c body (cls ++ "])") Hbody) as H.
    cbn [append] in H |- *. cbn [strip_lookahead]. rewrite H.
    f_equal. apply IH.
    cbn in Hbody. now apply andb_true_iff in Hbody as [_ Hbody].
Qed.

(** X10.  The guard at the end of a pattern is cut off exactly: when the
    text in front of it holds no exclamation mark and the class of the
    guard no line terminator, [strip_lookahead] returns that text. *)
Theorem strip_lookahead_cuts_the_guard body cls :
  no_bang body = true ->
  no_line_terminator cls = true ->
  strip_lookahead (body ++ "(?![" ++ cls ++ "])") = body.
Proof. exact (strip_guard body cls). Qed.

Lemma strip_lookahead_cuts_the_guard_witness :
  strip_lookahead ("(?:A(?:bs|dd))" ++ "(?![" ++ "`$[:alnum:]" ++ "])") =
  "(?:A(?:bs|dd))".
Proof.
  apply (strip_lookahead_cuts_the_guard "(?:A(?:bs|dd))" "`$[:alnum:]");
    reflexivity.
Defined.

(** The outer group around the expression of a trie is taken off. *)
Lemma unwrap_group_of_trie ts :
  pieces_all plain ts = true ->
  unwrap_outer_group ("(?:" ++ print_all ts ++ ")") = print_all ts.
Proof.
  intros Hwf. unfold unwrap_outer_group.
  rewrite startsWith_app.
  assert (Hend : endsWith ("(?:" ++ print_all ts ++ ")") ")" = true).
  { replace ("(?:" ++ print_all ts ++ ")") with (("(?:" ++ print_all ts) ++ ")")
      by (rewrite append_assoc; reflexivity).
    apply endsWith_app. }
  rewrite Hend. cbn [andb].
  replace (String.length ("(?:" ++ print_all ts ++ ")") - 1)
    with (String.length "(?:" + String.length (print_all ts)) by lengths.
  change 3 with (String.length "(?:").
  rewrite js_substring_middle.
  rewrite <- (append_nil_r (print_all ts)) at 1.
  rewrite (proj2 balance_print_inside) by (auto; lia).
  reflexivity.
Qed.

Lemma symbol_char_plain c :
  symbol_char c = true -> plain_char c = true /\ Ascii.eqb c "!" = false.
Proof.
  destruct c as [[] [] [] [] [] [] [] []]; intros H;
    first [ discriminate H | split; reflexivity ].
Qed.

Lemma symbol_chars_plain s :
  all_chars symbol_char s = true -> plain s = true /\ no_bang s = true.
Proof.
  unfold plain, no_bang. induction s as [|c s IH]; cbn; [auto|].
  intros H. apply andb_true_iff in H as [Hc Hs].
  destruct (symbol_char_plain c Hc) as [H1 H2].
  destruct (IH Hs) as [H3 H4]. now rewrite H1, H2, H3, H4.
Qed.

Lemma symbol_pieces :
  (forall t, pieces (all_chars symbol_char) t = true ->
     pieces plain t = true /\ no_bang (print t) = true) /\
  (forall ts, pieces_all (all_chars symbol_char) ts = true ->
     pieces_all plain ts = true /\ no_bang (print_all ts) = true).
Proof.
  apply trie_mutual_ind; cbn [pieces pieces_all print print_all].
  - intros lit H. now apply symbol_chars_plain.
  - intros lit ts IH H. apply andb_true_iff in H as [Hlit Hts].
    destruct (symbol_chars_plain lit Hlit) as [H1 H2].
    destruct (IH Hts) as [H3 H4]. split; [now rewrite H1, H3|].
    unfold no_bang in *. rewrite !all_chars_app, H2, H4. reflexivity.
  - intros t IH H. now apply IH.
  - intros t IHt ts IHts H. apply andb_true_iff in H as [Ht Hts].
    destruct (IHt Ht) as [H1 H2]. destruct (IHts Hts) as [H3 H4].
    split; [now rewrite H1, H3|].
    unfold no_bang in *. rewrite !all_chars_app, H2, H4. reflexivity.
Qed.

Lemma filter_symbol_names names :
  forallb is_symbol_name names = true ->
  filter is_symbol_name (filter nonempty names) = names.
Proof.
  induction names as [|n names IH]; cbn [filter forallb]; [reflexivity|].
  intros H. apply andb_true_iff in H as [Hn Hs].
  assert (Hne : nonempty n = true) by (destruct n; [discriminate | reflexivity]).
  rewrite Hne. cbn [filter]. rewrite Hn. f_equal. now apply IH.
Qed.

(** X11.  From a match expression of the grammar, the namespace prefix,
    then a trie of names in a non-capturing group, then the guard,
    [extractSymbolNames] recovers exactly the names of the trie, in the
    order of its leaves, when the pieces of the trie are made of
    symbol characters and the names are symbol names. *)
Theorem extractSymbolNames_of_grammar_pattern ts cls :
  pieces_all (all_chars symbol_char) ts = true ->
  forallb is_symbol_name (names_of_all ts) = true ->
  no_line_terminator cls = true ->
  extractSymbolNames (grammar_pattern ts cls) = names_of_all ts.
Proof.
  intros Hpieces Hnames Hcls.
  destruct (proj2 symbol_pieces ts Hpieces) as [Hplain Hbang].
  unfold extractSymbolNames, grammar_pattern.
  rewrite plain_prefix_is_stripped.
  rewrite strip_guard; [|..|assumption].
  - rewrite unwrap_group_of_trie, expand_print_all by assumption.
    now apply filter_symbol_names.
  - unfold no_bang in *. cbn. rewrite all_chars_app, Hbang. reflexivity.
Qed.

(** The pattern in the comment above [extractSymbolNames]. *)
Lemma extractSymbolNames_of_grammar_pattern_witness :
  extractSymbolNames "System`(?:A(?:bs|dd)|B(?:ar))(?![`$[:alnum:]])" =
  ["Abs"; "Add"; "Bar"].
Proof.
  apply (extractSymbolNames_of_grammar_pattern
           (More (Branch "A" (More (Leaf "bs") (One (Leaf "dd"))))
                 (One (Branch "B" (One (Leaf "ar")))))
           "`$[:alnum:]"); reflexivity.
Defined.

(** *** A group that is never closed *)

(** X20.  Of an expression whose group is never closed, only the text in
    front of the parenthesis is kept: for [p] and [q] without
    parentheses and bars, the expansion of [p], an opening parenthesis
    and [q] is [p] alone, and nothing when [p] is empty. *)
Theorem unclosed_group_keeps_prefix p q :
  plain p = true ->
  plain q = true ->
  expandTrie (p ++ "(" ++ q) = push_nonempty [] p.
Proof.
  intros Hp Hq. rewrite expandTrie_unfold. unfold expand_step.
  rewrite scan_plain by assumption.
  cbn [append doExpand_scan Ascii.eqb Bool.eqb LP RP BAR Z.eqb].
  rewrite <- (append_nil_r q) at 1. rewrite scan_plain by assumption.
  cbn [doExpand_scan Nat.add].
  change (String "(" q) with ("(" ++ q).
  rewrite js_substring_from_app, js_substring_prefix.
  cbn [append doExpand_close Ascii.eqb Bool.eqb LP RP BAR].
  rewrite <- (append_nil_r q). rewrite close_plain by assumption.
  reflexivity.
Qed.

Lemma unclosed_group_keeps_prefix_witness :
  expandTrie ("Plot" ++ "(" ++ "3D") = push_nonempty [] "Plot".
Proof.
  apply (unclosed_group_keeps_prefix "Plot" "3D"); reflexivity.
Defined.

End ExpansionFacts.


(* ================================================================== *)
(** ** More on the match blocks                                        *)
(* ================================================================== *)

Module BlockFacts.
Import Generator GeneratorFacts.
Local Open Scope string_scope.
Local Open Scope nat_scope.

(** Two strictly increasing lists with the same elements are equal. *)
Lemma strictly_sorted_unique : forall a b,
  StronglySorted String_as_OT.lt a ->
  StronglySorted String_as_OT.lt b ->
  (forall x, In x a <-> In x b) ->
  a = b.
Proof.
  induction a as [|x a IH]; intros [|y b] Ha Hb Hin.
  - reflexivity.
  - destruct (proj2 (Hin y) (or_introl eq_refl)).
  - destruct (proj1 (Hin x) (or_introl eq_refl)).
  - apply StronglySorted_inv in Ha as [Ha Hx].
    apply StronglySorted_inv in Hb as [Hb Hy].
    rewrite Forall_forall in Hx, Hy.
    assert (Hxy : x = y).
    { destruct (proj1 (Hin x) (or_introl eq_refl)) as [E|Hxb]; [now symmetry|].
      destruct (proj2 (Hin y) (or_introl eq_refl)) as [E|Hya]; [assumption|].
      exfalso.
      exact (String_as_OT.lt_not_eq _ _
               (String_as_OT.lt_trans _ _ _ (Hx y Hya) (Hy x Hxb)) eq_refl). }
    subst y. f_equal. apply IH; try assumption.
    intros z. split; intros Hz.
    + destruct (proj1 (Hin z) (or_intror Hz)) as [E|H]; [|assumption].
      subst z. exfalso. exact (String_as_OT.lt_not_eq _ _ (Hx x Hz) eq_refl).
    + destruct (proj2 (Hin z) (or_intror Hz)) as [E|H]; [|assumption].
      subst z. exfalso. exact (String_as_OT.lt_not_eq _ _ (Hy x Hz) eq_refl).
Qed.

(** X12.  The blocks depend on the set of the names only: two lists
    with the same elements, in whatever order and however often, give
    the same text. *)
Theorem match_blocks_depend_on_the_set capture a b nodeType maxRegexLen :
  (forall x, In x a <-> In x b) ->
  generateMatchBlocks capture a nodeType maxRegexLen =
  generateMatchBlocks capture b nodeType maxRegexLen.
Proof.
  intros Hin. unfold generateMatchBlocks, matchBatches.
  replace (js_sort (array_of_set b)) with (js_sort (array_of_set a));
    [reflexivity|].
  apply strictly_sorted_unique; try apply sorted_names_strict.
  intros x. rewrite !sorted_names_In. apply Hin.
Qed.

Lemma match_blocks_depend_on_the_set_witness :
  generateMatchBlocks "function" ["Sin"; "Cos"; "Sin"] "symbol" 4000 =
  generateMatchBlocks "function" ["Cos"; "Sin"] "symbol" 4000.
Proof.
  apply (match_blocks_depend_on_the_set "function" ["Sin"; "Cos"; "Sin"]
           ["Cos"; "Sin"] "symbol" 4000).
  intros x. cbn. tauto.
Defined.

(** *** Blocks are filled as far as the bound allows *)

Lemma tight_grow m x : forall out batch,
  batch <> [] ->
  tight m (out ++ [batch])%list ->
  tight m (out ++ [(batch ++ [x])%list])%list.
Proof.
  induction out as [|l1 out IH]; intros batch Hne Ht.
  - exact I.
  - destruct out as [|l2 out].
    + cbn [app tight] in *. destruct Ht as [Ht _].
      destruct batch as [|n batch]; [contradiction|]. cbn [app]. auto.
    + change (tight m (l1 :: (l2 :: out) ++ [(batch ++ [x])%list])%list).
      change (tight m (l1 :: (l2 :: out) ++ [batch])%list) in Ht.
      cbn [app tight] in Ht |- *. destruct Ht as [H1 H2].
      split; [assumption|]. apply (IH batch Hne). exact H2.
Qed.

Lemma tight_flush m name : forall out batch,
  m < weight batch + String.length name + 1 ->
  tight m (out ++ [batch])%list ->
  tight m ((out ++ [batch]) ++ [[name]])%list.
Proof.
  induction out as [|l1 out IH]; intros batch Hlt Ht.
  - cbn [app tight]. auto.
  - destruct out as [|l2 out].
    + cbn [app tight] in *. destruct Ht as [Ht _]. auto.
    + change (tight m (l1 :: (l2 :: out) ++ [batch])%list) in Ht.
      change (tight m (l1 :: ((l2 :: out) ++ [batch]) ++ [[name]])%list).
      cbn [app tight] in Ht |- *. destruct Ht as [H1 H2].
      split; [assumption|]. apply (IH batch Hlt). exact H2.
Qed.

Lemma tight_front m : forall out batch,
  tight m (out ++ [batch])%list -> tight m out.
Proof.
  induction out as [|l1 out IH]; intros batch Ht; [exact I|].
  destruct out as [|l2 out]; [exact I|].
  change (tight m (l1 :: (l2 :: out) ++ [batch])%list) in Ht.
  cbn [app tight] in Ht |- *. destruct Ht as [H1 H2].
  split; [assumption|]. exact (IH batch H2).
Qed.

Lemma batch_loop_tight m : forall sorted out batch currentLen,
  currentLen = weight batch ->
  (batch = [] -> out = []) ->
  tight m (out ++ [batch])%list ->
  tight m (batch_loop m sorted out batch currentLen).
Proof.
  induction sorted as [|name sorted IH]; intros out batch cur Hcur Hemp Ht.
  - cbn [batch_loop]. destruct batch as [|n batch]; cbn [List.length Nat.ltb Nat.leb].
    + rewrite (Hemp eq_refl). exact I.
    + exact Ht.
  - cbn [batch_loop].
    destruct (m <? cur + String.length name + 1) eqn:Hlt;
      destruct (0 <? List.length batch) eqn:Hlen; cbn [andb].
    + apply IH.
      * unfold weight. cbn. lia.
      * discriminate.
      * apply tight_flush; [|assumption].
        apply Nat.ltb_lt in Hlt. lia.
    + destruct batch; [|discriminate Hlen].
      rewrite (Hemp eq_refl) in *. apply IH.
      * subst cur. unfold weight. cbn. lia.
      * discriminate.
      * exact I.
    + apply IH.
      * subst cur. rewrite weight_app.
        change (weight [name]) with (String.length name + 1 + 0). lia.
      * intros E. destruct batch; discriminate E.
      * apply tight_grow; [|assumption].
        intros E. subst batch. discriminate Hlen.
    + destruct batch; [|discriminate Hlen].
      rewrite (Hemp eq_refl) in *. apply IH.
      * subst cur. unfold weight. cbn. lia.
      * discriminate.
      * exact I.
Qed.

Lemma tight_adjacent m : forall pre b1 b2 post,
  tight m (pre ++ b1 :: b2 :: post)%list ->
  exists n later, b2 = n :: later /\ m < weight b1 + String.length n + 1.
Proof.
  induction pre as [|p pre IH]; intros b1 b2 post Ht.
  - cbn [app tight] in Ht. destruct Ht as [H _].
    destruct b2 as [|n later]; [contradiction|]. now exists n, later.
  - apply (IH b1 b2 post).
    destruct pre as [|p2 pre]; cbn [app tight] in Ht |- *; apply Ht.
Qed.

(** X13.  A block is closed only when the next name does not fit: of
    two blocks that follow each other, the count of the first, the
    length of every name plus one, together with the first name of the
    second and its one, is over the bound. *)
Theorem blocks_are_filled names maxRegexLen pre b1 b2 post :
  matchBatches names maxRegexLen = (pre ++ b1 :: b2 :: post)%list ->
  exists n later,
    b2 = n :: later /\
    maxRegexLen < weight b1 + String.length n + 1.
Proof.
  intros E. apply (tight_adjacent maxRegexLen pre b1 b2 post).
  rewrite <- E. unfold matchBatches.
  apply batch_loop_tight; [reflexivity | reflexivity | exact I].
Qed.

Lemma blocks_are_filled_witness :
  exists n later,
    ["Cos"] = n :: later /\
    6 < weight ["Abs"] + String.length n + 1.
Proof.
  apply (blocks_are_filled ["Cos"; "Abs"; "Sin"] 6 [] ["Abs"] ["Cos"] [["Sin"]]).
  reflexivity.
Defined.

(** *** Names that fit into one block *)

Lemma batch_loop_fits m : forall sorted out batch currentLen,
  currentLen + weight sorted <= m ->
  batch_loop m sorted out batch currentLen =
    if 0 <? List.length (batch ++ sorted)%list then (out ++ [batch ++ sorted])%list
    else out.
Proof.
  induction sorted as [|name sorted IH]; intros out batch cur Hfit.
  - cbn [batch_loop]. now rewrite app_nil_r.
  - cbn [batch_loop].
    assert (Hw : weight (name :: sorted) = String.length name + 1 + weight sorted)
      by reflexivity.
    replace (m <? cur + String.length name + 1) with false
      by (symmetry; apply Nat.ltb_ge; lia).
    cbn [andb]. rewrite IH by lia.
    now rewrite <- app_assoc.
Qed.

(** X14.  Names that fit into the bound make one block: when the count
    of the distinct names, the length of each plus one, is within
    [maxRegexLen], the text is the single block of the sorted distinct
    names, with no separator. *)
Theorem names_that_fit_make_one_block capture names nodeType maxRegexLen :
  names <> [] ->
  weight (js_sort (array_of_set names)) <= maxRegexLen ->
  generateMatchBlocks capture names nodeType maxRegexLen =
  formatMatchBlock capture (js_sort (array_of_set names)) nodeType.
Proof.
  intros Hne Hfit. unfold generateMatchBlocks, matchBatches.
  rewrite batch_loop_fits by lia. cbn [app].
  destruct (js_sort (array_of_set names)) as [|n sorted] eqn:E.
  - exfalso. destruct names as [|x names]; [now apply Hne|].
    assert (H : In x (js_sort (array_of_set (x :: names))))
      by (apply sorted_names_In; now left).
    rewrite E in H. destruct H.
  - reflexivity.
Qed.

Lemma names_that_fit_make_one_block_witness :
  generateMatchBlocks "function" ["Sin"; "Cos"; "Sin"] "symbol" 4000 =
  formatMatchBlock "function" (js_sort (array_of_set ["Sin"; "Cos"; "Sin"])) "symbol".
Proof.
  apply (names_that_fit_make_one_block "function" ["Sin"; "Cos"; "Sin"] "symbol" 4000).
  - discriminate.
  - vm_compute. lia.
Defined.

End BlockFacts.

(* ================================================================== *)
(** ** More on the scopes and on the run                               *)
(* ================================================================== *)

Module ScopeFacts.
Import Generator GeneratorFacts.
Local Open Scope string_scope.
Local Open Scope nat_scope.

Lemma map_get_set_new m scope v scope' :
  map_get (map_set_new m scope v) scope' =
    match map_get m scope' with
    | Some w => Some w
    | None => if String.eqb scope scope' then Some v else None
    end.
Proof.
  unfold map_set_new. induction m as [|[k w] m IH]; cbn [app map_get].
  - reflexivity.
  - destruct (String.eqb k scope'); [reflexivity | exact IH].
Qed.

Lemma map_get_push m scope names scope' :
  map_get (map_push m scope names) scope' =
    if String.eqb scope scope'
    then option_map (fun v => (v ++ names)%list) (map_get m scope')
    else map_get m scope'.
Proof.
  induction m as [|[k w] m IH]; cbn [map_push map_get option_map].
  - now destruct (String.eqb scope scope').
  - destruct (String.eqb_spec k scope) as [->|Hk]; cbn [map_get].
    + destruct (String.eqb scope scope'); reflexivity.
    + destruct (String.eqb_spec k scope') as [->|Hk'].
      * destruct (String.eqb_spec scope scope') as [E|_]; [|reflexivity].
        now symmetry in E.
      * exact IH.
Qed.

(** What one pattern does to the entry of a scope. *)
Lemma collect_pattern_get m pattern scope :
  map_get (collect_pattern m pattern) scope =
    match names_in_scope scope pattern with
    | [] => map_get m scope
    | names =>
        Some (match map_get m scope with Some v => v | None => [] end ++ names)%list
    end.
Proof.
  unfold collect_pattern, names_in_scope.
  destruct (truthy (tm_match pattern)) as [mt|]; [|reflexivity].
  destruct (truthy (tm_name pattern)) as [sc|]; [|reflexivity].
  destruct (extractSymbolNames mt) as [|n names] eqn:E; cbn [List.length Nat.eqb].
  - now destruct (String.eqb sc scope).
  - rewrite map_get_push.
    destruct (String.eqb_spec sc scope) as [->|Hne].
    + unfold map_has.
      destruct (map_get m scope) as [v|] eqn:Hget.
      * rewrite Hget. reflexivity.
      * rewrite map_get_set_new, Hget, String.eqb_refl. reflexivity.
    + unfold map_has.
      destruct (map_get m sc) as [v|]; [reflexivity|].
      rewrite map_get_set_new.
      destruct (map_get m scope); [reflexivity|].
      apply String.eqb_neq in Hne. now rewrite Hne.
Qed.

Lemma collect_get scope : forall patterns m,
  map_get (fold_left collect_pattern patterns m) scope =
    match scope_names scope patterns with
    | [] => map_get m scope
    | names =>
        Some (match map_get m scope with Some v => v | None => [] end ++ names)%list
    end.
Proof.
  unfold scope_names.
  induction patterns as [|p patterns IH]; intros m; cbn [fold_left flat_map].
  - reflexivity.
  - rewrite IH, collect_pattern_get.
    destruct (names_in_scope scope p) as [|n names]; cbn [app]; [reflexivity|].
    destruct (flat_map (names_in_scope scope) patterns) as [|n' names'].
    + now rewrite app_nil_r.
    + destruct (names ++ n' :: names')%list eqn:E;
        [destruct names; discriminate E|].
      rewrite <- E. f_equal.
      change (n :: names) with ([n] ++ names)%list.
      now rewrite <- !app_assoc.
Qed.

Lemma scope_entry grammar scope :
  map_get (collect_symbols grammar) scope =
    match scope_names scope (symbolPatterns grammar) with
    | [] => None
    | names => Some names
    end.
Proof.
  unfold collect_symbols. fold (symbolPatterns grammar).
  rewrite collect_get. cbn [map_get app].
  now destruct (scope_names scope (symbolPatterns grammar)).
Qed.

(** X15.  What the loop over the patterns collects for a scope: the
    names of all the patterns that have an expression and this scope
    name, one pattern after the other in the order of the grammar; a
    scope none of whose patterns yields a name has no entry, so no
    entry is ever empty. *)
Theorem collect_symbols_by_scope grammar scope :
  map_get (collect_symbols grammar) scope =
    match scope_names scope (symbolPatterns grammar) with
    | [] => None
    | names => Some names
    end.
Proof. exact (scope_entry grammar scope). Qed.

Lemma flat_map_same {A B} (f g : A -> list B) l :
  (forall x, In x l -> f x = g x) -> flat_map f l = flat_map g l.
Proof.
  induction l as [|x l IH]; intros H; cbn [flat_map]; [reflexivity|].
  rewrite (H x (or_introl eq_refl)), IH; [reflexivity|].
  intros y Hy. apply H. now right.
Qed.

Lemma truthy_some field v : truthy field = Some v -> field = Some v.
Proof. destruct field as [[|c s]|]; cbn; congruence. Qed.

Lemma scope_names_highlighted scope capture patterns :
  In (scope, Some capture) SCOPE_MAP ->
  scope_names scope (filter highlighted patterns) = scope_names scope patterns.
Proof.
  intros Hin. unfold scope_names.
  induction patterns as [|p patterns IH]; cbn [filter flat_map]; [reflexivity|].
  destruct (highlighted p) eqn:Hp; cbn [flat_map]; [now rewrite IH|].
  rewrite IH.
  replace (names_in_scope scope p) with (@nil string); [reflexivity|].
  unfold names_in_scope.
  destruct (truthy (tm_match p)) as [mt|]; [|reflexivity].
  destruct (truthy (tm_name p)) as [sc|] eqn:Hsc; [|reflexivity].
  destruct (String.eqb_spec sc scope) as [->|]; [|reflexivity].
  exfalso. apply truthy_some in Hsc.
  unfold highlighted in Hp. rewrite Hsc in Hp.
  assert (Ht : existsb (fun entry => String.eqb (fst entry) scope &&
                          match snd entry with Some _ => true | None => false end)
                       SCOPE_MAP = true).
  { apply existsb_exists. exists (scope, Some capture).
    split; [assumption|]. cbn [fst snd]. now rewrite String.eqb_refl. }
  congruence.
Qed.

(** X16.  Patterns of scopes that are not highlighted leave no trace:
    dropping from the grammar every pattern whose scope name has no
    capture name in [SCOPE_MAP], because it is not listed there or
    listed with [null], or that has no scope name, gives the same
    highlights document. *)
Theorem unmapped_scopes_leave_no_trace patterns :
  highlights_document {| symbols_patterns := Some (filter highlighted patterns) |} =
  highlights_document {| symbols_patterns := Some patterns |}.
Proof.
  unfold highlights_document, highlight_sections, generated_sections.
  do 3 f_equal. f_equal.
  apply flat_map_same. intros [scope [capture|]] Hin; [|reflexivity].
  unfold scope_section. rewrite !scope_entry.
  unfold symbolPatterns. cbn [symbols_patterns].
  now rewrite (scope_names_highlighted scope capture).
Qed.

End ScopeFacts.

Module RunFacts.
Import Generator GeneratorFacts BlockFacts.
Local Open Scope string_scope.
Local Open Scope nat_scope.

(** X17.  The generator writes its two output files and nothing else:
    after a run that does not throw, the grammar file and every file
    other than the two outputs hold what they held before, and the two
    outputs exist. *)
Theorem run_touches_only_the_outputs ROOT parse_grammar engine_sort writable fs fs' :
  main ROOT parse_grammar engine_sort writable fs = Finished fs' ->
  fs' (TM_GRAMMAR_PATH ROOT) = fs (TM_GRAMMAR_PATH ROOT) /\
  (forall p, p <> HIGHLIGHTS_OUT ROOT -> p <> BRACKETS_OUT ROOT -> fs' p = fs p) /\
  fs' (HIGHLIGHTS_OUT ROOT) <> None /\
  fs' (BRACKETS_OUT ROOT) <> None.
Proof.
  intros Hrun.
  destruct (outputs_are_not_the_grammar ROOT) as (Hgh & Hgb & Hhb).
  destruct (run_outputs _ _ _ _ _ _ Hrun)
    as (text & grammar & _ & _ & _ & _ & Hb & Hh & Hrest).
  repeat split.
  - now apply Hrest.
  - exact Hrest.
  - rewrite (Hh Hhb). discriminate.
  - rewrite Hb. discriminate.
Qed.

Lemma run_touches_only_the_outputs_witness :
  exists fs',
    main "/repo" sample_parse js_sort sample_writable sample_fs_used = Finished fs' /\
    fs' (TM_GRAMMAR_PATH "/repo") = sample_fs_used (TM_GRAMMAR_PATH "/repo") /\
    (forall p, p <> HIGHLIGHTS_OUT "/repo" -> p <> BRACKETS_OUT "/repo" ->
       fs' p = sample_fs_used p) /\
    fs' (HIGHLIGHTS_OUT "/repo") <> None /\
    fs' (BRACKETS_OUT "/repo") <> None.
Proof.
  eexists. split; [reflexivity|].
  apply (run_touches_only_the_outputs "/repo" sample_parse js_sort
           sample_writable sample_fs_used).
  reflexivity.
Defined.

Lemma rerun_changes_nothing_witness :
  exists fs' fs'',
    main "/repo" sample_parse js_sort sample_writable sample_fs_used = Finished fs' /\
    main "/repo" sample_parse js_sort sample_writable fs' = Finished fs'' /\
    forall p, fs'' p = fs' p.
Proof.
  eexists.
  destruct (rerun_changes_nothing "/repo" sample_parse js_sort sample_writable
              sample_fs_used _ eq_refl) as [fs'' H].
  exists fs''. split; [reflexivity | exact H].
Defined.

(** *** The output does not depend on the engine's sort *)

(** With the merge sort for the engine's, the document is the one of
    [highlights_document]. *)
Lemma highlights_document_by_js_sort grammar :
  highlights_document_by js_sort grammar = highlights_document grammar.
Proof. reflexivity. Qed.

Lemma js_sort_sorts : sorts js_sort.
Proof. intros l. split; [apply js_sort_perm | apply js_sort_sorted]. Qed.

(** Of an array without duplicates, every sort that meets the contract
    returns the same array. *)
Lemma sort_of_distinct sort names :
  sorts sort ->
  sort (array_of_set names) = js_sort (array_of_set names).
Proof.
  intros Hsort.
  destruct (Hsort (array_of_set names)) as [Hperm Hsorted].
  apply strictly_sorted_unique.
  - apply sorted_NoDup_strict; [assumption|].
    eapply Permutation_NoDup; [exact Hperm | apply array_of_set_NoDup].
  - apply sorted_names_strict.
  - intros x. split; intros H.
    + apply (proj2 (sorted_names_In names x)), (proj1 (array_of_set_In names x)).
      eapply Permutation_in; [apply Permutation_sym, Hperm | exact H].
    + eapply Permutation_in; [exact Hperm|].
      apply (proj2 (array_of_set_In names x)), (proj1 (sorted_names_In names x)), H.
Qed.

Lemma generateMatchBlocks_by_sorts sort capture names nodeType maxRegexLen :
  sorts sort ->
  generateMatchBlocks_by sort capture names nodeType maxRegexLen =
  generateMatchBlocks capture names nodeType maxRegexLen.
Proof.
  intros Hsort.
  unfold generateMatchBlocks_by, matchBatches_by, generateMatchBlocks, matchBatches.
  now rewrite (sort_of_distinct sort names Hsort).
Qed.

Lemma highlights_document_by_sorts sort grammar :
  sorts sort ->
  highlights_document_by sort grammar = highlights_document grammar.
Proof.
  intros Hsort.
  unfold highlights_document_by, highlights_document, highlight_sections,
    generated_sections.
  do 3 f_equal. f_equal.
  apply ScopeFacts.flat_map_same. intros [scope [capture|]] _; [|reflexivity].
  unfold scope_section_by, scope_section.
  destruct (map_get (collect_symbols grammar) scope) as [names|]; [|reflexivity].
  destruct (List.length names =? 0); [reflexivity|].
  now rewrite generateMatchBlocks_by_sorts.
Qed.

(** C8.  Two runs of the generator over the same grammar document leave
    the same two output documents, byte for byte.  The runs may differ
    in everything else a run can meet: the files the file system holds
    besides the grammar document, the paths the host lets the script
    write, and the sorting algorithm of the engine, as long as that one
    sorts.  Both runs are taken to reach their end; a run that throws
    has not produced its documents. *)
Theorem same_grammar_same_documents ROOT parse_grammar
    sortA sortB writableA writableB fsA fsB fsA' fsB' :
  sorts sortA ->
  sorts sortB ->
  readFileSync (TM_GRAMMAR_PATH ROOT) fsA = readFileSync (TM_GRAMMAR_PATH ROOT) fsB ->
  main ROOT parse_grammar sortA writableA fsA = Finished fsA' ->
  main ROOT parse_grammar sortB writableB fsB = Finished fsB' ->
  exists text grammar,
    readFileSync (TM_GRAMMAR_PATH ROOT) fsA = Some text /\
    parse_grammar text = Some grammar /\
    fsA' (HIGHLIGHTS_OUT ROOT) = Some (highlights_document grammar) /\
    fsB' (HIGHLIGHTS_OUT ROOT) = Some (highlights_document grammar) /\
    fsA' (BRACKETS_OUT ROOT) = Some brackets_document /\
    fsB' (BRACKETS_OUT ROOT) = Some brackets_document.
Proof.
  intros HsortA HsortB Hsame HrunA HrunB.
  destruct (outputs_are_not_the_grammar ROOT) as (_ & _ & Hhb).
  destruct (run_outputs _ _ _ _ _ _ HrunA)
    as (textA & grammarA & HtA & HpA & _ & _ & HbA & HhA & _).
  destruct (run_outputs _ _ _ _ _ _ HrunB)
    as (textB & grammarB & HtB & HpB & _ & _ & HbB & HhB & _).
  unfold readFileSync in Hsame.
  assert (textB = textA) by congruence. subst textB.
  assert (grammarB = grammarA) by congruence. subst grammarB.
  exists textA, grammarA.
  rewrite (HhA Hhb), (HhB Hhb), HbA, HbB.
  rewrite !highlights_document_by_sorts by assumption.
  repeat split; auto.
Qed.

(** A checkout that holds no other file and one that holds an older
    highlights file, on a host where the output directory is there. *)
Lemma same_grammar_same_documents_witness :
  exists fsA' fsB' text grammar,
    main "/repo" sample_parse js_sort sample_writable sample_fs_fresh = Finished fsA' /\
    main "/repo" sample_parse js_sort sample_writable sample_fs_used = Finished fsB' /\
    readFileSync (TM_GRAMMAR_PATH "/repo") sample_fs_fresh = Some text /\
    sample_parse text = Some grammar /\
    fsA' (HIGHLIGHTS_OUT "/repo") = Some (highlights_document grammar) /\
    fsB' (HIGHLIGHTS_OUT "/repo") = Some (highlights_document grammar) /\
    fsA' (BRACKETS_OUT "/repo") = Some brackets_document /\
    fsB' (BRACKETS_OUT "/repo") = Some brackets_document.
Proof.
  eexists. eexists.
  destruct (same_grammar_same_documents "/repo" sample_parse js_sort js_sort
              sample_writable sample_writable sample_fs_fresh sample_fs_used
              _ _ js_sort_sorts js_sort_sorts eq_refl eq_refl eq_refl)
    as (text & grammar & H).
  exists text, grammar. split; [reflexivity|]. split; [reflexivity|]. exact H.
Defined.

(** Where the output directory is missing the run throws at the first
    write and leaves the file system as it was. *)
Lemma missing_directory_throws :
  exists fs',
    main "/repo" sample_parse js_sort sample_unwritable sample_fs_fresh = Threw fs' /\
    forall p, fs' p = sample_fs_fresh p.
Proof. eexists. split; reflexivity. Qed.

End RunFacts.

(* ================================================================== *)
(** ** The order of the rules in the highlights document               *)
(* ================================================================== *)

Module DocumentFacts.
Import Generator GeneratorFacts ExpansionFacts.
Local Open Scope string_scope.
Local Open Scope nat_scope.

(** *** Occurrences *)

Lemma occurs_in_refl n : occurs_in n n.
Proof. exists "", "". cbn. now rewrite append_nil_r. Qed.

Lemma occurs_in_app n a h b : occurs_in n h -> occurs_in n (a ++ h ++ b).
Proof.
  intros (x & y & ->). exists (a ++ x), (y ++ b).
  now rewrite !append_assoc.
Qed.

Lemma occurs_in_trans n m h : occurs_in n m -> occurs_in m h -> occurs_in n h.
Proof. intros Hn (x & y & ->). now apply occurs_in_app. Qed.

Lemma join_app sep : forall l1 l2,
  l1 <> [] -> l2 <> [] ->
  join sep (l1 ++ l2)%list = join sep l1 ++ sep ++ join sep l2.
Proof.
  induction l1 as [|x [|y l1] IH]; intros l2 H1 H2.
  - contradiction.
  - cbn [app]. now rewrite join_cons.
  - change (join sep (x :: ((y :: l1) ++ l2)%list) =
            join sep (x :: y :: l1) ++ sep ++ join sep l2).
    rewrite join_cons by (cbn [app]; discriminate).
    rewrite (join_cons sep x (y :: l1)) by discriminate.
    rewrite IH by (assumption || discriminate).
    now rewrite !append_assoc.
Qed.

Lemma in_join sep x : forall l, In x l -> occurs_in x (join sep l).
Proof.
  induction l as [|a [|b l] IH]; intros Hin.
  - destruct Hin.
  - destruct Hin as [->|[]]. apply occurs_in_refl.
  - rewrite join_cons by discriminate.
    destruct Hin as [->|Hin].
    + exists "", (sep ++ join sep (b :: l)). reflexivity.
    + apply (occurs_in_app x (a ++ sep) (join sep (b :: l)) "") in IH; [|exact Hin].
      now rewrite append_nil_r, append_assoc in IH.
Qed.

Lemma occurs_at_app n y : forall x,
  occurs_at n (x ++ n ++ y) (String.length x) = true.
Proof.
  induction x as [|c x IH]; cbn [append String.length occurs_at].
  - apply startsWith_app.
  - exact IH.
Qed.

Lemma occurs_in_at n h : occurs_in n h -> exists j, occurs_at n h j = true.
Proof. intros (x & y & ->). exists (String.length x). apply occurs_at_app. Qed.

(** An occurrence of [p ++ t] that starts where [a] still has room for
    [p] shows an occurrence of [p] in [a]. *)
Lemma prefix_app_inv t m : forall p a,
  prefix (p ++ t) (a ++ m) = true ->
  String.length p <= String.length a ->
  prefix p a = true.
Proof.
  induction p as [|c p IH]; intros a Hpre Hlen; [destruct a; reflexivity|].
  destruct a as [|c' a]; [cbn in Hlen; lia|].
  cbn [append prefix] in Hpre |- *.
  destruct (ascii_dec c c'); [|discriminate].
  apply IH; [assumption | cbn in Hlen; lia].
Qed.

Lemma occurs_at_head p t m : forall j a,
  occurs_at (p ++ t) (a ++ m) j = true ->
  j + String.length p <= String.length a ->
  occurs_at p a j = true.
Proof.
  induction j as [|j IH]; intros a Hocc Hlen; cbn [occurs_at] in *.
  - unfold startsWith in *. now apply (prefix_app_inv t m).
  - destruct a as [|c a]; [cbn in Hlen; lia|].
    cbn [append] in Hocc. apply IH; [assumption | cbn in Hlen; lia].
Qed.

(** *** The document *)

(** The fixed sections in front, then the generated and the remaining
    fixed ones. *)
Lemma document_split grammar :
  highlights_document grammar =
    join (nl ++ nl) sections_before ++
    ((nl ++ nl) ++
     join (nl ++ nl)
          (generated_sections (collect_symbols grammar) ++ sections_after)%list ++
     nl).
Proof.
  unfold highlights_document, highlight_sections.
  rewrite join_app.
  - now rewrite !append_assoc.
  - discriminate.
  - intros E. apply app_eq_nil in E as [_ E]. discriminate E.
Qed.

Lemma head_split :
  join (nl ++ nl) sections_before =
    before_fallback ++ section_symbols ++ behind_fallback.
Proof. vm_compute. reflexivity. Qed.

(** Up to the end of the fallback section no rule on the node type
    [symbol] with a predicate starts. *)
Lemma no_block_in_head :
  none_below "((symbol) @" (join (nl ++ nl) sections_before)
             (String.length (before_fallback ++ section_symbols)) = true /\
  String.length (before_fallback ++ section_symbols) + String.length "((symbol) @"
    <= String.length (join (nl ++ nl) sections_before).
Proof.
  split.
  - vm_compute. reflexivity.
  - apply Nat.leb_le. vm_compute. reflexivity.
Qed.

Lemma block_starts capture batch :
  exists t, formatMatchBlock capture batch default_nodeType = "((symbol) @" ++ t.
Proof.
  unfold formatMatchBlock, default_nodeType. cbn [append].
  eexists. reflexivity.
Qed.

(** Every block of a scope stands in the document. *)
Lemma block_in_document grammar scope capture names batch :
  In (scope, Some capture) SCOPE_MAP ->
  map_get (collect_symbols grammar) scope = Some names ->
  In batch (matchBatches names default_maxRegexLen) ->
  occurs_in (formatMatchBlock capture batch default_nodeType)
            (highlights_document grammar).
Proof.
  intros Hmap Hget Hbatch.
  assert (Hne : (List.length names =? 0) = false).
  { destruct names; [destruct Hbatch | reflexivity]. }
  set (block := formatMatchBlock capture batch default_nodeType).
  set (section := "; " ++ replace_first ".wolfram" "" scope ++
                  " (from vscode-wolfram)" ++ nl ++
                  generateMatchBlocks capture names default_nodeType
                                      default_maxRegexLen).
  assert (Hblock : occurs_in block section).
  { assert (H : occurs_in block (generateMatchBlocks capture names default_nodeType
                                                     default_maxRegexLen)).
    { unfold generateMatchBlocks. apply in_join.
      apply (in_map (fun b => formatMatchBlock capture b default_nodeType)).
      exact Hbatch. }
    apply (occurs_in_app block
             ("; " ++ replace_first ".wolfram" "" scope ++
              " (from vscode-wolfram)" ++ nl) _ "") in H.
    rewrite append_nil_r, !append_assoc in H. exact H. }
  assert (Hsection : In section (generated_sections (collect_symbols grammar))).
  { unfold generated_sections. apply in_flat_map.
    exists (scope, Some capture). split; [assumption|].
    unfold scope_section. rewrite Hget, Hne. now left. }
  apply (occurs_in_trans block section); [assumption|].
  assert (Hjoin : occurs_in section
            (join (nl ++ nl)
                  (generated_sections (collect_symbols grammar) ++ sections_after)%list))
    by (apply in_join, in_or_app; now left).
  destruct Hjoin as (x & y & Hxy).
  rewrite document_split, Hxy.
  exists (join (nl ++ nl) sections_before ++ (nl ++ nl) ++ x), (y ++ nl).
  now rewrite !append_assoc.
Qed.

(** C7.  In every highlights document the generator assembles, the
    section of the generic fallback, which ends with the rule that maps
    every symbol node to [variable], is there, and every match block of
    a scope, that is every block [formatMatchBlock] makes for a capture
    name of [SCOPE_MAP] from a batch of the names collected for its
    scope, is there as well and starts nowhere but behind the end of
    the fallback section. *)
Theorem fallback_rule_precedes_scope_blocks grammar :
  exists i,
    occurs_at section_symbols (highlights_document grammar) i = true /\
    endsWith section_symbols "(symbol) @variable" = true /\
    forall scope capture names batch,
      In (scope, Some capture) SCOPE_MAP ->
      map_get (collect_symbols grammar) scope = Some names ->
      In batch (matchBatches names default_maxRegexLen) ->
      (exists j, occurs_at (formatMatchBlock capture batch default_nodeType)
                           (highlights_document grammar) j = true) /\
      (forall j, occurs_at (formatMatchBlock capture batch default_nodeType)
                           (highlights_document grammar) j = true ->
                 i + String.length section_symbols <= j).
Proof.
  exists (String.length before_fallback). split; [|split].
  - rewrite document_split, head_split, !append_assoc.
    apply occurs_at_app.
  - reflexivity.
  - intros scope capture names batch Hmap Hget Hbatch. split.
    + apply occurs_in_at. now apply (block_in_document grammar scope capture names).
    + intros j Hj.
      destruct (Nat.le_gt_cases
                  (String.length before_fallback + String.length section_symbols) j)
        as [Hle|Hlt]; [exact Hle|exfalso].
      destruct no_block_in_head as [Hnone Hroom].
      rewrite length_append in Hnone, Hroom.
      destruct (block_starts capture batch) as [t Ht].
      rewrite Ht, document_split in Hj.
      apply occurs_at_head in Hj; [|lia].
      unfold none_below in Hnone. rewrite forallb_forall in Hnone.
      specialize (Hnone j). rewrite Hj in Hnone.
      assert (Hin : In j (seq 0 (String.length before_fallback +
                                 String.length section_symbols)))
        by (apply in_seq; lia).
      specialize (Hnone Hin). discriminate.
Qed.

(** The document of [sample_grammar]: the block of the built-in
    functions [Abs] and [Add] stands behind the fallback section. *)
Lemma fallback_rule_precedes_scope_blocks_witness :
  exists i j,
    occurs_at section_symbols (highlights_document sample_grammar) i = true /\
    occurs_at (formatMatchBlock "function.builtin" ["Abs"; "Add"] "symbol")
              (highlights_document sample_grammar) j = true /\
    i + String.length section_symbols <= j.
Proof.
  destruct (fallback_rule_precedes_scope_blocks sample_grammar)
    as (i & Hi & _ & Hblocks).
  destruct (Hblocks "support.function.builtin.wolfram" "function.builtin"
                    ["Abs"; "Add"] ["Abs"; "Add"])
    as [[j Hj] Hall].
  - left. reflexivity.
  - reflexivity.
  - left. reflexivity.
  - exists i, j. split; [exact Hi|]. split; [exact Hj|]. exact (Hall j Hj).
Defined.

End DocumentFacts.
